(** * WebGPU CTS: parameter records, the checklist tool and the device pool

    A shallow embedding of
      - src/framework/params/index.ts   (paramsEquals, paramsSupersets)
      - src/framework/params/variant.ts (pvariant), with poptions, pbool
        and pvalid
      - src/common/tools/checklist.ts   (the overlap / gap checker)
      - src/webgpu/util/device_pool.ts  (DevicePool, DeviceHolderPool, DeviceHolder)
      - the buffer expectation of the GPU test fixture (GPUTest.expectBuffer)
    together with the properties the specification states about them and
    further properties of the code. *)

From Stdlib Require Import PrimFloat SpecFloat FloatAxioms.
From stdpp Require Import gmap strings list fin_maps pretty sorting.

Set Default Proof Using "Type".

(** ** JavaScript values and strict equality *)

Module JS.

(** A JavaScript value as far as [===] can tell values apart: primitives
    carry their contents, objects carry only their identity. *)
Inductive Value : Type :=
  | VUndefined
  | VNull
  | VBool (b : bool)
  | VNumber (f : float)
  | VString (s : string)
  | VObject (addr : nat).

(** [a === b].  Numbers compare as IEEE-754 doubles (so [NaN] differs from
    itself and the two zeroes are equal), objects by reference. *)
Definition strict_equals (a b : Value) : bool :=
  match a, b with
  | VUndefined, VUndefined => true
  | VNull, VNull => true
  | VBool x, VBool y => bool_decide (x = y)
  | VNumber x, VNumber y => PrimFloat.eqb x y
  | VString x, VString y => bool_decide (x = y)
  | VObject x, VObject y => bool_decide (x = y)
  | _, _ => false
  end.

End JS.

Infix "===" := JS.strict_equals (at level 70, no associativity).

(** ** framework/params/index.ts *)

Module Params.

(** [ParamArgument = any]. *)
Abbreviation ParamArgument := JS.Value.

(** The own enumerable properties of a parameter record.  Records are plain
    data objects, so [Object.keys] and [hasOwnProperty] see the same keys. *)
Abbreviation Props := (gmap string ParamArgument).

(** A [ParamsSpec] object: its identity and its properties. *)
Record ParamsSpec : Type := mkParamsSpec {
  addr : nat;
  props : Props;
}.

(** [Object.keys(o)] *)
Definition keys (o : Props) : list string := elements (dom o).

(** [o.hasOwnProperty(k)] *)
Definition hasOwnProperty (o : Props) (k : string) : bool :=
  bool_decide (is_Some (o !! k)).

(** [o[k]]: a missing property reads as [undefined]. *)
Definition get (o : Props) (k : string) : ParamArgument :=
  default JS.VUndefined (o !! k).

(** [x === y] on values of type [ParamsSpec | null]. *)
Definition same_reference (x y : option ParamsSpec) : bool :=
  match x, y with
  | None, None => true
  | Some a, Some b => bool_decide (addr a = addr b)
  | _, _ => false
  end.

(** The first loop of [paramsEquals]. *)
Fixpoint paramsEquals_xloop (xks : list string) (x y : Props) : bool :=
  match xks with
  | [] => true
  | xk :: rest =>
      if negb (hasOwnProperty y xk) then false
      else if negb (get x xk === get y xk) then false
      else paramsEquals_xloop rest x y
  end.

(** The second loop of [paramsEquals]. *)
Fixpoint paramsEquals_yloop (yks : list string) (x : Props) : bool :=
  match yks with
  | [] => true
  | yk :: rest =>
      if negb (hasOwnProperty x yk) then false
      else paramsEquals_yloop rest x
  end.

Definition paramsEquals (x y : option ParamsSpec) : bool :=
  if same_reference x y then true
  else
    match x, y with
    | None, _ | _, None => false
    | Some x, Some y =>
        if negb (paramsEquals_xloop (keys (props x)) (props x) (props y)) then false
        else paramsEquals_yloop (keys (props y)) (props x)
    end.

Fixpoint paramsSupersets_loop (ks : list string) (sup sub : Props) : bool :=
  match ks with
  | [] => true
  | k :: rest =>
      if negb (hasOwnProperty sup k) || negb (get sup k === get sub k) then false
      else paramsSupersets_loop rest sup sub
  end.

Definition paramsSupersets (sup sub : option ParamsSpec) : bool :=
  match sub with
  | None => true
  | Some sub =>
      match sup with
      | None => false
      | Some sup => paramsSupersets_loop (keys (props sub)) (props sup) (props sub)
      end
  end.

(** *** framework/params/variant.ts *)

(** What iterating a generator produces: the records it yields, in order,
    ended either by normal completion or by a thrown error. *)
Inductive Generated (A : Type) : Type :=
  | Done
  | Yield (a : A) (rest : Generated A)
  | Throw (message : string).
Arguments Done {A}.
Arguments Yield {A} a rest.
Arguments Throw {A} message.






(** *** framework/params/options.ts *)



(** *** suites/cts/validation/validation_test.ts *)


End Params.

(** ** common/tools/checklist.ts *)

Module Checklist.

(** [Ordering] of framework/query/compare.ts. *)
Inductive Ordering : Type := Unordered | StrictSuperset | Equal | StrictSubset.

Global Instance Ordering_eq_dec : EqDecision Ordering.
Proof. solve_decision. Defined.

(** One [console.log] call of the tool, before rendering to text. *)
Inductive Line (Q : Type) : Type :=
  | LoadingQueries
  | FoundSuites (suites : list string)
  | SuiteHeader (suite : string)
  | FoundCases (n : nat)
  | CheckingOverlaps (n : nat)
  | OverlappingQueries (q1 q2 : Q)
  | CheckingContents
  | NoQueryFound (testcase : Q)
  | CheckingUnmatched
  | UnmatchedQuery (q : Q).
Arguments LoadingQueries {Q}.
Arguments FoundSuites {Q} suites.
Arguments SuiteHeader {Q} suite.
Arguments FoundCases {Q} n.
Arguments CheckingOverlaps {Q} n.
Arguments OverlappingQueries {Q} q1 q2.
Arguments CheckingContents {Q}.
Arguments NoQueryFound {Q} testcase.
Arguments CheckingUnmatched {Q}.
Arguments UnmatchedQuery {Q} q.

(** A computation of the tool: what it printed, and either its value or
    the status [process.exit] was called with. *)
Inductive Result (A : Type) : Type :=
  | Returned (a : A)
  | Exited (status : nat).
Arguments Returned {A} a.
Arguments Exited {A} status.

Definition Run (Q A : Type) : Type := list (Line Q) * Result A.

Definition ret {Q A} (a : A) : Run Q A := ([], Returned a).

Definition bind {Q A B} (m : Run Q A) (f : A → Run Q B) : Run Q B :=
  match m with
  | (out, Returned a) => let '(out', r) := f a in (out ++ out', r)
  | (out, Exited status) => (out, Exited status)
  end.

Global Instance Run_ret {Q} : MRet (Run Q) := λ A, ret.
Global Instance Run_bind {Q} : MBind (Run Q) := λ A B f m, bind m f.

Definition console_log {Q} (l : Line Q) : Run Q unit := ([l], Returned tt).
Definition process_exit {Q A} (status : nat) : Run Q A := ([], Exited status).

(** [function die(message) { console.log(message); process.exit(1); }] *)
Definition die {Q A} (message : Line Q) : Run Q A :=
  console_log message ;; process_exit 1.

Section Main.
(** The query module and the file loader are collaborators of the tool. *)
Context {TestQuery : Type}.
Variable suite : TestQuery → string.
Variable compareQueries : TestQuery → TestQuery → Ordering.
(** [loader.loadCases(new TestQueryMultiFile(suite, []))], as the list of
    the cases' queries. *)
Variable loadCases : string → list TestQuery.

(** [{ query, count }] *)
Record Entry : Type := mkEntry { query : TestQuery; count : nat }.

(** [queriesBySuite]: a [Map] keeps its keys in insertion order. *)
Fixpoint push_query (q : TestQuery) (m : list (string * list Entry))
    : list (string * list Entry) :=
  match m with
  | [] => [(suite q, [mkEntry q 0])]
  | (s, qs) :: rest =>
      if decide (s = suite q) then (s, qs ++ [mkEntry q 0]) :: rest
      else (s, qs) :: push_query q rest
  end.

Definition queriesBySuite (allQueries : list TestQuery)
    : list (string * list Entry) :=
  foldl (fun m q => push_query q m) [] allQueries.

(** The inner overlap loop; [i] and [j] are the positions of [q1] and of
    the head of [qs] in the list, and stand for the identity of the query
    objects in [q1 !== q2]. *)
Fixpoint overlaps_inner (i : nat) (q1 : TestQuery) (j : nat)
    (qs : list Entry) : Run TestQuery unit :=
  match qs with
  | [] => ret tt
  | e :: rest =>
      (if bool_decide (i ≠ j) && bool_decide (compareQueries q1 (query e) ≠ Unordered)
       then die (OverlappingQueries q1 (query e))
       else ret tt) ;;
      overlaps_inner i q1 (S j) rest
  end.

Fixpoint overlaps_outer (i : nat) (qs queries : list Entry)
    : Run TestQuery unit :=
  match qs with
  | [] => ret tt
  | e :: rest =>
      overlaps_inner i (query e) 0 queries ;;
      overlaps_outer (S i) rest queries
  end.

(** The loop over the queries for one test case: [Some queries'] when a
    query matched (its count bumped, [continue caseloop]), [None] when the
    loop ran to its end. *)
Fixpoint find_query (testcase : TestQuery) (queries : list Entry)
    : option (list Entry) :=
  match queries with
  | [] => None
  | q :: rest =>
      let comparison := compareQueries (query q) testcase in
      if bool_decide (comparison = StrictSuperset) || bool_decide (comparison = Equal)
      then Some (mkEntry (query q) (S (count q)) :: rest)
      else (q ::.) <$> find_query testcase rest
  end.

Fixpoint caseloop (testcases : list TestQuery) (queries : list Entry)
    : Run TestQuery (list Entry) :=
  match testcases with
  | [] => ret queries
  | testcase :: rest =>
      queries' ← match find_query testcase queries with
                 | Some queries' => ret queries'
                 | None => die (NoQueryFound testcase)
                 end;
      caseloop rest queries'
  end.

Fixpoint report_unmatched (queries : list Entry) : Run TestQuery unit :=
  match queries with
  | [] => ret tt
  | e :: rest =>
      (if bool_decide (count e = 0) then console_log (UnmatchedQuery (query e))
       else ret tt) ;;
      report_unmatched rest
  end.

(** The body of [for (const [suite, queries] of queriesBySuite.entries())]. *)
Definition check_suite (s : string) (queries : list Entry)
    : Run TestQuery unit :=
  console_log (SuiteHeader s) ;;
  let testcases := loadCases s in
  console_log (FoundCases (length testcases)) ;;
  console_log (CheckingOverlaps (length queries)) ;;
  overlaps_outer 0 queries queries ;;
  console_log CheckingContents ;;
  queries' ← caseloop testcases queries;
  console_log CheckingUnmatched ;;
  report_unmatched queries'.

Fixpoint check_suites (m : list (string * list Entry)) : Run TestQuery unit :=
  match m with
  | [] => ret tt
  | (s, queries) :: rest => check_suite s queries ;; check_suites rest
  end.

(** The tool from the point where the lines of the list file have been
    parsed into [allQueries]. *)
Definition main (allQueries : list TestQuery) : Run TestQuery unit :=
  console_log LoadingQueries ;;
  let m := queriesBySuite allQueries in
  console_log (FoundSuites m.*1) ;;
  check_suites m.

(** The violations the tool prints. *)
Definition is_violation (l : Line TestQuery) : bool :=
  match l with
  | OverlappingQueries _ _ | NoQueryFound _ => true
  | _ => false
  end.

Definition reported {A} (r : Run TestQuery A) : list (Line TestQuery) :=
  filter (fun l => is_violation l = true) r.1.

(** Every violation present in the input, in the order the loops of the
    tool visit them. *)
Definition overlaps_of (i : nat) (q1 : TestQuery) (queries : list Entry)
    : list (Line TestQuery) :=
  omap (fun '(j, e) =>
          if bool_decide (i ≠ j) && bool_decide (compareQueries q1 (query e) ≠ Unordered)
          then Some (OverlappingQueries q1 (query e)) else None)
       (imap pair queries).

Definition all_overlaps (queries : list Entry) : list (Line TestQuery) :=
  mjoin (imap (fun i e => overlaps_of i (query e) queries) queries).

Definition covers (q testcase : TestQuery) : bool :=
  bool_decide (compareQueries q testcase = StrictSuperset)
  || bool_decide (compareQueries q testcase = Equal).

Definition all_gaps (s : string) (queries : list Entry) : list (Line TestQuery) :=
  omap (fun testcase =>
          if existsb (fun e => covers (query e) testcase) queries then None
          else Some (NoQueryFound testcase))
       (loadCases s).

Definition all_violations (allQueries : list TestQuery) : list (Line TestQuery) :=
  mjoin ((fun '(s, queries) => all_overlaps queries ++ all_gaps s queries)
           <$> queriesBySuite allQueries).

End Main.

End Checklist.

(** ** webgpu/util/device_pool.ts *)

Module DevicePool.

(** *** Errors *)

(** The values thrown inside the pool.  [TestFailedButDeviceReusable] and
    [FeaturesNotSupported] are private to the module, so only its own code
    can throw them; [Error] is what a failed [assert] throws; [Foreign] is a
    rejection coming from the GPU implementation or from a timed-out wait. *)
Inductive Exception : Type :=
  | TestFailedButDeviceReusable (message : string)
  | FeaturesNotSupported (message : string)
  | TestOOMedShouldAttemptGC (message : string)
  | SkipTestCase (message : string)
  | Error (message : string)
  | Foreign (name message : string).

Inductive Result (A : Type) : Type :=
  | Ok (a : A)
  | Throw (ex : Exception).
Arguments Ok {A} a.
Arguments Throw {A} ex.

(** [ex instanceof TestFailedButDeviceReusable] *)
Definition isTestFailedButDeviceReusable (ex : Exception) : bool :=
  match ex with TestFailedButDeviceReusable _ => true | _ => false end.

(** [ex instanceof FeaturesNotSupported] *)
Definition isFeaturesNotSupported (ex : Exception) : bool :=
  match ex with FeaturesNotSupported _ => true | _ => false end.

(** [ex.name] and [ex.message] *)
Definition ex_name (ex : Exception) : string :=
  match ex with Foreign name _ => name | _ => "Error" end.

Definition ex_message (ex : Exception) : string :=
  match ex with
  | TestFailedButDeviceReusable m | FeaturesNotSupported m
  | TestOOMedShouldAttemptGC m | SkipTestCase m | Error m | Foreign _ m => m
  end.

(** The settled state of a promise of the GPU implementation. *)
Inductive Awaited (A : Type) : Type :=
  | Resolved (a : A)
  | Rejected (name message : string).
Arguments Resolved {A} a.
Arguments Rejected {A} name message.

(** *** Descriptors and their canonical key *)

Abbreviation GPUFeatureName := string.

Record UncanonicalizedDeviceDescriptor : Type := {
  requiredFeatures : option (list GPUFeatureName);
  requiredLimits : option (gmap string nat);
}.

(** [CanonicalDeviceDescriptor]; [requiredLimits] keeps the order in which
    its properties were added, which is the order [JSON.stringify] prints. *)
Record CanonicalDeviceDescriptor : Type := {
  canonicalFeatures : list GPUFeatureName;
  canonicalLimits : list (string * nat);
}.

Definition dquote : string := String (Ascii.ascii_of_nat 34) EmptyString.
Definition newline : string := String (Ascii.ascii_of_nat 10) EmptyString.

(** [JSON.stringify] of a string without characters that need escaping. *)
Definition JSON_string (s : string) : string := dquote +:+ s +:+ dquote.

(** [JSON.stringify(descriptor)], as it appears inside a template string. *)
Definition JSON_stringify (d : option CanonicalDeviceDescriptor) : string :=
  match d with
  | None => "undefined"
  | Some d =>
      "{" +:+ JSON_string "requiredFeatures" +:+ ":["
      +:+ String.concat "," (JSON_string <$> canonicalFeatures d)
      +:+ "]," +:+ JSON_string "requiredLimits" +:+ ":{"
      +:+ String.concat ","
            ((fun '(k, v) => JSON_string k +:+ ":" +:+ pretty v) <$> canonicalLimits d)
      +:+ "}," +:+ JSON_string "defaultQueue" +:+ ":{}}"
  end.

(** The order of [Array.prototype.sort()] without a comparator. *)
Definition string_le (a b : string) : Prop := String.leb a b = true.

Global Instance string_le_dec : RelDecision string_le.
Proof. intros a b. unfold string_le. apply _. Defined.

Section Canonicalize.
(** [kLimits] and [kLimitInfo[limit].default] of capability_info.ts. *)
Variable kLimits : list string.
Variable kLimitDefault : string → nat.

(** The loop over [kLimits] in [canonicalizeDescriptor]. *)
Fixpoint canonicalizeLimits (limits : list string) (requested : gmap string nat)
    : list (string * nat) :=
  match limits with
  | [] => []
  | limit :: rest =>
      match requested !! limit with
      | Some requestedValue =>
          if decide (requestedValue ≠ kLimitDefault limit)
          then (limit, requestedValue) :: canonicalizeLimits rest requested
          else canonicalizeLimits rest requested
      | None => canonicalizeLimits rest requested
      end
  end.

Definition canonicalizeDescriptor (desc : option UncanonicalizedDeviceDescriptor)
    : option CanonicalDeviceDescriptor * string :=
  match desc with
  | None => (None, EmptyString)
  | Some desc =>
      let featuresCanonicalized :=
        match requiredFeatures desc with
        | Some fs => merge_sort string_le (remove_dups fs)
        | None => []
        end in
      let limitsCanonicalized :=
        match requiredLimits desc with
        | Some requested => canonicalizeLimits kLimits requested
        | None => []
        end in
      let descriptorCanonicalized :=
        {| canonicalFeatures := featuresCanonicalized;
           canonicalLimits := limitsCanonicalized |} in
      (Some descriptorCanonicalized, JSON_stringify (Some descriptorCanonicalized))
  end.
End Canonicalize.

(** *** Holders *)

Inductive DeviceHolderState : Type := free | reserved | acquired.

Global Instance DeviceHolderState_eq_dec : EqDecision DeviceHolderState.
Proof. solve_decision. Defined.

(** [GPUDeviceLostReason] *)
Inductive GPUDeviceLostReason : Type := reason_unknown | reason_destroyed.

Global Instance GPUDeviceLostReason_eq_dec : EqDecision GPUDeviceLostReason.
Proof. solve_decision. Defined.

Record GPUDeviceLostInfo : Type := {
  reason : GPUDeviceLostReason;
  message : string;
}.

(** A [GPUDevice] object, by identity.  The interface declares [destroy], so
    ['destroy' in holder.device] holds of every device. *)
Abbreviation GPUDevice := nat.

Record DeviceHolder : Type := mkDeviceHolder {
  device : GPUDevice;
  state : DeviceHolderState;
  lostInfo : option GPUDeviceLostInfo;
  expectedLostReason : option GPUDeviceLostReason;
}.

Definition set_state (s : DeviceHolderState) (h : DeviceHolder) : DeviceHolder :=
  mkDeviceHolder (device h) s (lostInfo h) (expectedLostReason h).

Definition set_expectedLostReason (r : GPUDeviceLostReason) (h : DeviceHolder)
    : DeviceHolder :=
  mkDeviceHolder (device h) (state h) (lostInfo h) (Some r).

(** The callback registered on [device.lost] in the constructor.  A promise
    settles once, so only the first notification is stored. *)
Definition notify_lost (ev : option GPUDeviceLostInfo) (h : DeviceHolder)
    : DeviceHolder :=
  match lostInfo h, ev with
  | None, Some ev => mkDeviceHolder (device h) (state h) (Some ev) (expectedLostReason h)
  | _, _ => h
  end.

(** A reference to a [DeviceHolder] object: its position in the store. *)
Abbreviation Ref := nat.

(** *** The pool *)

Record DeviceHolderPool : Type := mkPool {
  poolSize : nat;
  unsupported : gset string;
  holders : list (string * Ref);
}.

(** [DevicePool.holders] *)
Inductive Holders : Type :=
  | uninitialized
  | failed
  | initialized (p : DeviceHolderPool).

(** The calls made to the GPU implementation that the properties speak
    about: each attempt to construct a device, and each [destroy]. *)
Inductive Call : Type :=
  | CallCreate (descriptor : option CanonicalDeviceDescriptor)
  | CallDestroy (d : GPUDevice).

(** What lives outside the pool object: the [DeviceHolder] objects (shared
    between the pool and the tests that hold them) and the calls made. *)
Record Heap : Type := mkHeap {
  store : list DeviceHolder;
  calls : list Call;
}.

(** A [DevicePool] and its surroundings. *)
Record World : Type := mkWorld {
  pool : Holders;
  heap : Heap;
}.

Definition kDevicePoolSize : nat := 20.

Definition update_holder (f : DeviceHolder → DeviceHolder) (r : Ref) (m : Heap) : Heap :=
  mkHeap (alter f r (store m)) (calls m).

Definition log_call (c : Call) (m : Heap) : Heap :=
  mkHeap (store m) (calls m ++ [c]).

(** [holder.state === s], [holder.device === d] through a reference. *)
Definition state_is (m : Heap) (r : Ref) (s : DeviceHolderState) : bool :=
  bool_decide (state <$> store m !! r = Some s).

Definition device_is (m : Heap) (r : Ref) (d : GPUDevice) : bool :=
  bool_decide (device <$> store m !! r = Some d).

(** *** DeviceHolder.create *)

Record GPUAdapter : Type := {
  features : gset GPUFeatureName;
  (** [adapter.requestDevice(descriptor)]: rejects, or resolves to a device
      ([true]) or to [null] ([false]). *)
  requestDevice : Awaited bool;
}.

(** What the GPU implementation answers during one [DeviceHolder.create];
    [None] is [requestAdapter()] resolving to [null]. *)
Record CreateEnv : Type := { requestAdapter : option GPUAdapter }.

Fixpoint supportsFeature_loop (adapter : GPUAdapter) (fs : list GPUFeatureName) : bool :=
  match fs with
  | [] => true
  | feature :: rest =>
      if negb (bool_decide (feature ∈ features adapter)) then false
      else supportsFeature_loop adapter rest
  end.

Definition supportsFeature (adapter : GPUAdapter)
    (descriptor : option CanonicalDeviceDescriptor) : bool :=
  match descriptor with
  | None => true
  | Some descriptor => supportsFeature_loop adapter (canonicalFeatures descriptor)
  end.

(** [new DeviceHolder(device)] around a device that did not exist before. *)
Definition new_holder (m : Heap) : DeviceHolder :=
  mkDeviceHolder (length (store m)) free None None.

Definition create (m : Heap) (descriptor : option CanonicalDeviceDescriptor)
    (env : CreateEnv) : Heap * Result Ref :=
  let m := log_call (CallCreate descriptor) m in
  match requestAdapter env with
  | None => (m, Throw (Error "requestAdapter returned null"))
  | Some adapter =>
      if negb (supportsFeature adapter descriptor)
      then (m, Throw (FeaturesNotSupported "One or more features are not supported"))
      else
        match requestDevice adapter with
        | Rejected name msg => (m, Throw (Foreign name msg))
        | Resolved false => (m, Throw (Error "requestDevice returned null"))
        | Resolved true =>
            (mkHeap (store m ++ [new_holder m]) (calls m), Ok (length (store m)))
        end
  end.

(** *** DeviceHolderPool *)

Definition set_holders (hs : list (string * Ref)) (this : DeviceHolderPool)
    : DeviceHolderPool :=
  mkPool (poolSize this) (unsupported this) hs.

Fixpoint deleteByDevice_loop (m : Heap) (d : GPUDevice) (hs : list (string * Ref))
    : list (string * Ref) :=
  match hs with
  | [] => []
  | (key, holder) :: rest =>
      if device_is m holder d then rest
      else (key, holder) :: deleteByDevice_loop m d rest
  end.

Definition deleteByDevice (this : DeviceHolderPool) (m : Heap) (d : GPUDevice)
    : DeviceHolderPool :=
  set_holders (deleteByDevice_loop m d (holders this)) this.

Definition insertAndCleanUp (key : string) (holder : Ref) (this : DeviceHolderPool)
    : DeviceHolderPool :=
  let hs := holders this ++ [(key, holder)] in
  if decide (poolSize this < length hs) then set_holders (tail hs) this
  else set_holders hs this.

(** The search loop of [getOrCreate]: the position and contents of the
    first entry whose holder is free.  The [key] bound by the loop shadows
    the requested key and is not compared with anything. *)
Fixpoint find_free (m : Heap) (i : nat) (hs : list (string * Ref))
    : option (nat * (string * Ref)) :=
  match hs with
  | [] => None
  | (key, holder) :: rest =>
      if state_is m holder free then Some (i, (key, holder))
      else find_free m (S i) rest
  end.

Section Pool.
Variable kLimits : list string.
Variable kLimitDefault : string → nat.

Definition getOrCreate (this : DeviceHolderPool) (m : Heap)
    (uncanonicalizedDescriptor : option UncanonicalizedDeviceDescriptor)
    (env : CreateEnv) : DeviceHolderPool * Heap * Result Ref :=
  let '(descriptor, key) :=
    canonicalizeDescriptor kLimits kLimitDefault uncanonicalizedDescriptor in
  if decide (key ∈ unsupported this) then
    (this, m,
     Throw (SkipTestCase ("GPUDeviceDescriptor previously failed: "
                          +:+ JSON_stringify descriptor)))
  else
    match find_free m 0 (holders this) with
    | Some (i, (key', holder)) =>
        (set_holders (delete i (holders this) ++ [(key', holder)]) this, m, Ok holder)
    | None =>
        match create m descriptor env with
        | (m, Throw ex) =>
            if isFeaturesNotSupported ex then
              (mkPool (poolSize this) ({[ key ]} ∪ unsupported this) (holders this), m,
               Throw (SkipTestCase ("GPUDeviceDescriptor not supported: "
                                    +:+ JSON_stringify descriptor +:+ newline
                                    +:+ ex_message ex)))
            else (this, m, Throw ex)
        | (m, Ok value) => (insertAndCleanUp key value this, m, Ok value)
        end
    end.

(** *** DevicePool.reserve *)

(** The answers of the GPU implementation during one [reserve]: for the
    construction of the first, default device and for the request proper. *)
Record ReserveEnv : Type := {
  initial_create : CreateEnv;
  request_create : CreateEnv;
}.

(** [reserve] from the second [getOrCreate] on. *)
Definition reserve_holder (this : DeviceHolderPool) (m : Heap)
    (descriptor : option UncanonicalizedDeviceDescriptor) (env : CreateEnv)
    : World * Result Ref :=
  let '(this, m, r) := getOrCreate this m descriptor env in
  match r with
  | Throw ex => (mkWorld (initialized this) m, Throw ex)
  | Ok holder =>
      if negb (state_is m holder free)
      then (mkWorld (initialized this) m,
            Throw (Error "Device was in use on DevicePool.acquire"))
      else (mkWorld (initialized this) (update_holder (set_state reserved) holder m),
            Ok holder)
  end.

Definition not_retrying (errorMessage : string) : Exception :=
  Error ("WebGPU device failed to initialize" +:+ errorMessage +:+ "; not retrying").

Definition reserve (w : World)
    (descriptor : option UncanonicalizedDeviceDescriptor) (env : ReserveEnv)
    : World * Result Ref :=
  match pool w with
  | uninitialized =>
      let this := mkPool kDevicePoolSize ∅ [] in
      match getOrCreate this (heap w) None (initial_create env) with
      | (_, m, Throw ex) =>
          (mkWorld failed m,
           Throw (not_retrying (" with " +:+ ex_name ex +:+ " " +:+ dquote
                                +:+ ex_message ex +:+ dquote)))
      | (this, m, Ok _) => reserve_holder this m descriptor (request_create env)
      end
  | failed => (w, Throw (not_retrying EmptyString))
  | initialized this => reserve_holder this (heap w) descriptor (request_create env)
  end.

End Pool.

(** *** Releasing *)

(** Modelled from the spec: [assert] of common/util/util.ts is not among
    the sources; a failed assertion throws an [Error] with the message. *)
Definition assert (condition : bool) (message : string) : Result unit :=
  if condition then Ok tt else Throw (Error message).

(** Modelled from the spec: [assertReject] of common/util/util.ts is not
    among the sources; the release check asserts that no error scope is
    left on the stack, so it fails when the promise resolves. *)
Definition assertReject {A} (p : Awaited A) (message : string) : Result unit :=
  match p with
  | Rejected _ _ => Ok tt
  | Resolved _ => Throw (Error message)
  end.

Inductive GPUError : Type :=
  | GPUValidationError (message : string)
  | GPUOutOfMemoryError (message : string).

Definition isGPUValidationError (e : GPUError) : bool :=
  match e with GPUValidationError _ => true | _ => false end.

Definition isGPUOutOfMemoryError (e : GPUError) : bool :=
  match e with GPUOutOfMemoryError _ => true | _ => false end.

Definition error_message (e : GPUError) : string :=
  match e with GPUValidationError m | GPUOutOfMemoryError m => m end.

(** What the GPU implementation does during one [DevicePool.release]. *)
Record ReleaseEnv : Type := {
  (** [device.lost] resolving while the error scopes are being popped *)
  lost_while_draining : option GPUDeviceLostInfo;
  (** the two [popErrorScope()] of the whole-test scopes *)
  popValidation : Awaited (option GPUError);
  popOutOfMemory : Awaited (option GPUError);
  (** [queue.onSubmittedWorkDone()], when the queue has the method *)
  onSubmittedWorkDone : option (Awaited unit);
  (** the [popErrorScope()] that is expected to reject *)
  popExtra : Awaited (option GPUError);
  (** the 5000 ms timer of [raceWithRejectOnTimeout] firing first *)
  timed_out : bool;
  (** [device.lost] resolving after that, before [ensureRelease] is back *)
  lost_after_draining : option GPUDeviceLostInfo;
}.

(** The tail of [DeviceHolder.release], once both scopes are popped. *)
Definition check_scopes (gpuValidationError gpuOutOfMemoryError : option GPUError)
    : Result unit :=
  match gpuValidationError with
  | Some e =>
      match assert (isGPUValidationError e) EmptyString with
      | Throw ex => Throw ex
      | Ok _ =>
          Throw (TestFailedButDeviceReusable
                   ("Unexpected validation error occurred: " +:+ error_message e))
      end
  | None =>
      match gpuOutOfMemoryError with
      | Some e =>
          match assert (isGPUOutOfMemoryError e) EmptyString with
          | Throw ex => Throw ex
          | Ok _ => Throw (TestOOMedShouldAttemptGC "Unexpected out-of-memory error occurred")
          end
      | None => Ok tt
      end
  end.

(** The [catch] around the two pops. *)
Definition pop_failed (this : DeviceHolder) (name msg : string) : Result unit :=
  match assert (bool_decide (lostInfo this ≠ None))
          "popErrorScope failed; should only happen if device has been lost" with
  | Throw ex => Throw ex
  | Ok _ => Throw (Foreign name msg)
  end.

(** The private [DeviceHolder.release]. *)
Definition DeviceHolder_release (this : DeviceHolder) (env : ReleaseEnv) : Result unit :=
  match popValidation env with
  | Rejected name msg => pop_failed this name msg
  | Resolved gpuValidationError =>
      match popOutOfMemory env with
      | Rejected name msg => pop_failed this name msg
      | Resolved gpuOutOfMemoryError =>
          match onSubmittedWorkDone env with
          | Some (Rejected name msg) => Throw (Foreign name msg)
          | _ =>
              match assertReject (popExtra env)
                      "There was an extra error scope on the stack after a test" with
              | Throw ex => Throw ex
              | Ok _ => check_scopes gpuValidationError gpuOutOfMemoryError
              end
          end
      end
  end.

(** Modelled from the spec: [raceWithRejectOnTimeout] of
    common/util/util.ts is not among the sources; the wait is bounded, and
    when the timer wins the call rejects with the message. *)
Definition raceWithRejectOnTimeout {A} (p : Result A) (timer_first : bool)
    (message : string) : Result A :=
  if timer_first then Throw (Foreign "Error" message) else p.

(** The [try] block of [ensureRelease]. *)
Definition ensureRelease_try (m : Heap) (r : Ref) (env : ReleaseEnv)
    : Heap * Result unit :=
  if state_is m r acquired then
    let m := update_holder (notify_lost (lost_while_draining env)) r m in
    match store m !! r with
    | Some this =>
        (m, raceWithRejectOnTimeout (DeviceHolder_release this env) (timed_out env)
              "finalization popErrorScope timed out")
    | None => (m, Ok tt)
    end
  else (m, Ok tt).

Definition ensureRelease (m : Heap) (r : Ref) (env : ReleaseEnv) : Heap * Result unit :=
  match assert (negb (state_is m r free)) EmptyString with
  | Throw ex => (m, Throw ex)
  | Ok _ =>
      let '(m, res) := ensureRelease_try m r env in
      (update_holder (set_state free) r m, res)
  end.

Definition reason_string (r : GPUDeviceLostReason) : string :=
  match r with reason_unknown => "unknown" | reason_destroyed => "destroyed" end.

Definition unexpectedly_lost (info : GPUDeviceLostInfo) : string :=
  "Device was unexpectedly lost. Reason: " +:+ reason_string (reason info)
  +:+ ", Message: " +:+ message info.

(** The [try] block of [DevicePool.release]. *)
Definition release_try (m : Heap) (r : Ref) (env : ReleaseEnv) : Heap * Result unit :=
  let '(m, res) := ensureRelease m r env in
  let m := update_holder (notify_lost (lost_after_draining env)) r m in
  match res with
  | Throw ex => (m, Throw ex)
  | Ok _ =>
      match lostInfo <$> store m !! r with
      | Some (Some info) => (m, Throw (Error (unexpectedly_lost info)))
      | _ => (m, Ok tt)
      end
  end.

(** [expectedDeviceLost] in the [catch] block of [DevicePool.release]. *)
Definition expectedDeviceLost (holder : DeviceHolder) : bool :=
  match expectedLostReason holder, lostInfo holder with
  | Some expected, Some info => bool_decide (expected = reason info)
  | _, _ => false
  end.

(** The [catch] block of [DevicePool.release]. *)
Definition release_catch (this : DeviceHolderPool) (m : Heap) (r : Ref) (ex : Exception)
    : DeviceHolderPool * Heap * Result unit :=
  match store m !! r with
  | None => (this, m, Throw ex)
  | Some holder =>
      let '(this, m) :=
        if negb (isTestFailedButDeviceReusable ex)
        then (deleteByDevice this m (device holder),
              log_call (CallDestroy (device holder)) m)
        else (this, m) in
      (this, m, if negb (expectedDeviceLost holder) then Throw ex else Ok tt)
  end.

Definition release (w : World) (r : Ref) (env : ReleaseEnv) : World * Result unit :=
  match pool w with
  | initialized this =>
      match store (heap w) !! r with
      | None => (w, Throw (Error "DeviceProvider should always be a DeviceHolder"))
      | Some holder =>
          match assert (negb (bool_decide (state holder = free)))
                  "trying to release a device while already released" with
          | Throw ex => (w, Throw ex)
          | Ok _ =>
              let '(m, res) := release_try (heap w) r env in
              let '(this, m, res) :=
                match res with
                | Ok _ => (this, m, Ok tt)
                | Throw ex => release_catch this m r ex
                end in
              (mkWorld (initialized this) (update_holder (set_state free) r m), res)
          end
      end
  | _ => (w, Throw (Error "DevicePool got into a bad state"))
  end.

(** *** DeviceHolder.acquire and DeviceHolder.expectDeviceLost *)

Definition acquire (m : Heap) (r : Ref) : Heap * Result GPUDevice :=
  match store m !! r with
  | None => (m, Throw (Error "not a DeviceHolder"))
  | Some this =>
      match assert (bool_decide (state this = reserved)) EmptyString with
      | Throw ex => (m, Throw ex)
      | Ok _ => (update_holder (set_state acquired) r m, Ok (device this))
      end
  end.

Definition expectDeviceLost (m : Heap) (r : Ref) (reason : GPUDeviceLostReason) : Heap :=
  update_holder (set_expectedLostReason reason) r m.

(** *** The pool in use *)

Section Machine.
Variable kLimits : list string.
Variable kLimitDefault : string → nat.

(** What can happen to a pool: the calls of the test runner and of the
    tests holding a device, and the loss of a device. *)
Inductive Op : Type :=
  | OpReserve (descriptor : option UncanonicalizedDeviceDescriptor) (env : ReserveEnv)
  | OpAcquire (holder : Ref)
  | OpExpectDeviceLost (holder : Ref) (reason : GPUDeviceLostReason)
  | OpRelease (holder : Ref) (env : ReleaseEnv)
  | OpDeviceLost (holder : Ref) (info : GPUDeviceLostInfo).

Definition step (w : World) (op : Op) : World :=
  match op with
  | OpReserve descriptor env => (reserve kLimits kLimitDefault w descriptor env).1
  | OpAcquire holder => mkWorld (pool w) (acquire (heap w) holder).1
  | OpExpectDeviceLost holder reason =>
      mkWorld (pool w) (expectDeviceLost (heap w) holder reason)
  | OpRelease holder env => (release w holder env).1
  | OpDeviceLost holder info =>
      mkWorld (pool w) (update_holder (notify_lost (Some info)) holder (heap w))
  end.

(** [new DevicePool()] before any device exists. *)
Definition new_DevicePool : World := mkWorld uninitialized (mkHeap [] []).

Inductive reachable : World → Prop :=
  | reachable_new : reachable new_DevicePool
  | reachable_step w op : reachable w → reachable (step w op).

(** A pool after a sequence of such events. *)
Definition run (w : World) (ops : list Op) : World := foldl step w ops.

(** The holders the pool may still hand out. *)
Definition pooled (w : World) : list (string * Ref) :=
  match pool w with
  | initialized this => holders this
  | _ => []
  end.

End Machine.

End DevicePool.

(** ** The buffer expectation of the GPU test fixture *)

Module GPUTest.

(** What the fixture hands to its recorder: [rec.fail] and [rec.log]. *)
Inductive Recorded : Type :=
  | rec_fail (msg : string)
  | rec_log (msg : string).

(** A [Uint8Array]. *)
Abbreviation Uint8Array := (list Byte.byte).

Definition hex_digit (n : N) : string :=
  match String.get (N.to_nat n) "0123456789abcdef" with
  | Some c => String c EmptyString
  | None => EmptyString
  end.

(** [x.toString(16)] for an element of a [Uint8Array]. *)
Definition toString16 (x : Byte.byte) : string :=
  let n := Byte.to_N x in
  if (n <? 16)%N then hex_digit n else hex_digit (n / 16) +:+ hex_digit (n `mod` 16).

Fixpoint zeros (k : nat) : string :=
  match k with
  | 0 => EmptyString
  | S k => "0" +:+ zeros k
  end.

(** [s.padStart(targetLength, '0')] *)
Definition padStart (targetLength : nat) (s : string) : string :=
  zeros (targetLength - String.length s) +:+ s.

(** [Array.from(a).map(x => x.toString(16).padStart(2, '0')).join('')] *)
Definition hex (a : Uint8Array) : string :=
  String.concat EmptyString (map (λ x, padStart 2 (toString16 x)) a).

Definition mismatch (i : nat) (e a : Byte.byte) : string :=
  "at [" +:+ pretty i +:+ "], expected " +:+ pretty (Byte.to_N e)
  +:+ ", got " +:+ pretty (Byte.to_N a).

(** The loop of [expectBuffer] from index [i] on, over the elements of the
    two arrays that are left; it returns the failures recorded and the
    final [failedPixels]. *)
Fixpoint expectBuffer_loop (i failedPixels : nat) (actual exp : Uint8Array)
    : list Recorded * nat :=
  match actual, exp with
  | a :: actual, e :: exp =>
      if negb (Byte.eqb a e) then
        if decide (4 < failedPixels) then ([rec_fail "... and more"], failedPixels)
        else
          let '(recs, n) := expectBuffer_loop (S i) (S failedPixels) actual exp in
          (rec_fail (mismatch i e a) :: recs, n)
      else expectBuffer_loop (S i) failedPixels actual exp
  | _, _ => ([], failedPixels)
  end.

Definition expectBuffer (actual exp : Uint8Array) : list Recorded :=
  let size := length exp in
  if decide (length actual ≠ size) then [rec_fail "size mismatch"]
  else
    let '(recs, failedPixels) := expectBuffer_loop 0 0 actual exp in
    if decide (size ≤ 256 ∧ 0 < failedPixels)
    then recs ++ [rec_log ("EXPECT: " +:+ hex exp); rec_log ("ACTUAL: " +:+ hex actual)]
    else recs.

End GPUTest.

(** * Properties *)

(** ** Parameter records *)

Module ParamsFacts.
Import Params.

Lemma hasOwnProperty_true (o : Props) k : hasOwnProperty o k = true ↔ k ∈ dom o.
Proof. unfold hasOwnProperty. rewrite bool_decide_eq_true, elem_of_dom. done. Qed.

Lemma elem_of_keys (o : Props) k : k ∈ keys o ↔ k ∈ dom o.
Proof. unfold keys. apply elem_of_elements. Qed.

Lemma paramsEquals_xloop_true xks (x y : Props) :
  paramsEquals_xloop xks x y = true ↔
  ∀ k, k ∈ xks → k ∈ dom y ∧ (get x k === get y k) = true.
Proof.
  induction xks as [|xk rest IH]; simpl.
  - split; [intros _ k Hk; by apply elem_of_nil in Hk | done].
  - destruct (hasOwnProperty y xk) eqn:Hown; simpl.
    + apply hasOwnProperty_true in Hown.
      destruct (get x xk === get y xk) eqn:Heq; simpl.
      * rewrite IH. split.
        -- intros H k [->|Hk]%elem_of_cons; auto.
        -- intros H k Hk. apply H. by right.
      * split; [done|]. intros H.
        destruct (H xk) as [_ H']; [by left|]. congruence.
    + split; [done|]. intros H.
      destruct (H xk) as [H' _]; [by left|].
      apply hasOwnProperty_true in H'. congruence.
Qed.

Lemma paramsEquals_yloop_true yks (x : Props) :
  paramsEquals_yloop yks x = true ↔ ∀ k, k ∈ yks → k ∈ dom x.
Proof.
  induction yks as [|yk rest IH]; simpl.
  - split; [intros _ k Hk; by apply elem_of_nil in Hk | done].
  - destruct (hasOwnProperty x yk) eqn:Hown; simpl.
    + apply hasOwnProperty_true in Hown. rewrite IH. split.
      * intros H k [->|Hk]%elem_of_cons; auto.
      * intros H k Hk. apply H. by right.
    + split; [done|]. intros H.
      assert (yk ∈ dom x) as H' by (apply H; by left).
      apply hasOwnProperty_true in H'. congruence.
Qed.

Lemma paramsSupersets_loop_true ks (sup sub : Props) :
  paramsSupersets_loop ks sup sub = true ↔
  ∀ k, k ∈ ks → k ∈ dom sup ∧ (get sup k === get sub k) = true.
Proof.
  induction ks as [|k0 rest IH]; simpl.
  - split; [intros _ k Hk; by apply elem_of_nil in Hk | done].
  - destruct (hasOwnProperty sup k0) eqn:Hown; simpl.
    + apply hasOwnProperty_true in Hown.
      destruct (get sup k0 === get sub k0) eqn:Heq; simpl.
      * rewrite IH. split.
        -- intros H k [->|Hk]%elem_of_cons; auto.
        -- intros H k Hk. apply H. by right.
      * split; [done|]. intros H.
        destruct (H k0) as [_ H']; [by left|]. congruence.
    + split; [done|]. intros H.
      destruct (H k0) as [H' _]; [by left|].
      apply hasOwnProperty_true in H'. congruence.
Qed.




(** Distinct objects with the same contents are equal; a [NaN] under a key
    makes two distinct objects unequal, while an object equals itself. *)
Example paramsEquals_examples :
  let a := mkParamsSpec 1 {[ "x" := JS.VNumber 1%float ]} in
  let b := mkParamsSpec 2 {[ "x" := JS.VNumber 1%float ]} in
  let n1 := mkParamsSpec 3 {[ "x" := JS.VNumber nan ]} in
  let n2 := mkParamsSpec 4 {[ "x" := JS.VNumber nan ]} in
  paramsEquals (Some a) (Some b) = true ∧
  paramsEquals (Some n1) (Some n2) = false ∧
  paramsEquals (Some n1) (Some n1) = true ∧
  paramsEquals None (Some a) = false ∧
  paramsSupersets (Some a) None = true ∧
  paramsSupersets (Some (mkParamsSpec 5 {[ "x" := JS.VBool true; "y" := JS.VNull ]}))
                  (Some (mkParamsSpec 6 {[ "x" := JS.VBool true ]})) = true.
Proof. vm_compute. done. Qed.

(** *** pvariant *)



(** Yielding the records of [l] and then going on as [g]. *)
Definition yield_all {A} (l : list A) (g : Generated A) : Generated A :=
  foldr Yield g l.










(** *** More on the parameter combinators *)


Lemma yield_all_Done_inj {A} (l1 l2 : list A) :
  yield_all l1 Done = yield_all l2 Done → l1 = l2.
Proof.
  revert l2. induction l1 as [|a l1 IH]; intros [|b l2]; simpl; try done.
  intros [= -> H]. f_equal. by apply IH.
Qed.











(** *** Equality and the subset order of records *)

Lemma SFeqb_sym f1 f2 : SFeqb f1 f2 = SFeqb f2 f1.
Proof.
  unfold SFeqb.
  destruct f1 as [s1|s1| |s1 m1 e1], f2 as [s2|s2| |s2 m2 e2]; simpl;
    try reflexivity; try (by destruct s1, s2); try (by destruct s1); try (by destruct s2).
  destruct s1, s2; try reflexivity.
  - rewrite (Z.compare_antisym e1 e2). destruct (e1 ?= e2)%Z; simpl; try reflexivity.
    change (Pos.compare_cont Eq m2 m1) with (m2 ?= m1)%positive.
    change (Pos.compare_cont Eq m1 m2) with (m1 ?= m2)%positive.
    rewrite (Pos.compare_antisym m1 m2). by destruct (m1 ?= m2)%positive.
  - rewrite (Z.compare_antisym e1 e2). destruct (e1 ?= e2)%Z; simpl; try reflexivity.
    change (Pos.compare_cont Eq m2 m1) with (m2 ?= m1)%positive.
    change (Pos.compare_cont Eq m1 m2) with (m1 ?= m2)%positive.
    rewrite (Pos.compare_antisym m1 m2). by destruct (m1 ?= m2)%positive.
Qed.

(** [===] is symmetric. *)
Lemma strict_equals_sym (a b : JS.Value) : (a === b) = (b === a).
Proof.
  destruct a, b; simpl; try reflexivity; try (apply bool_decide_ext; naive_solver).
  by rewrite !FloatAxioms.eqb_spec, SFeqb_sym.
Qed.


(** [paramsEquals] on two objects that are not the same reference. *)
Lemma paramsEquals_objects (x y : ParamsSpec) :
  same_reference (Some x) (Some y) = false →
  paramsEquals (Some x) (Some y) = true ↔
  (∀ k, k ∈ dom (props x) →
     k ∈ dom (props y) ∧ (get (props x) k === get (props y) k) = true) ∧
  (∀ k, k ∈ dom (props y) → k ∈ dom (props x)).
Proof.
  intros Href. unfold paramsEquals. rewrite Href.
  destruct (paramsEquals_xloop _ _ _) eqn:Hx; simpl.
  - rewrite paramsEquals_xloop_true in Hx. rewrite paramsEquals_yloop_true. split.
    + intros Hy. split; intros k Hk; [apply Hx | apply Hy]; by apply elem_of_keys.
    + intros [_ Hy] k Hk%elem_of_keys. by apply Hy.
  - split; [done|]. intros [Hx' _].
    assert (paramsEquals_xloop (keys (props x)) (props x) (props y) = true); [|congruence].
    apply paramsEquals_xloop_true. intros k Hk%elem_of_keys. by apply Hx'.
Qed.

Lemma paramsSupersets_objects (sup sub : ParamsSpec) :
  paramsSupersets (Some sup) (Some sub) = true ↔
  ∀ k, k ∈ dom (props sub) →
    k ∈ dom (props sup) ∧ (get (props sup) k === get (props sub) k) = true.
Proof.
  simpl. rewrite paramsSupersets_loop_true. split.
  - intros H k Hk. by apply H, elem_of_keys.
  - intros H k Hk%elem_of_keys. by apply H.
Qed.


(** X6: two records each of which is a superset of the other are equal. *)
Theorem mutual_supersets_equal x y :
  paramsSupersets x y = true → paramsSupersets y x = true → paramsEquals x y = true.
Proof.
  destruct (same_reference x y) eqn:Href.
  { intros _ _. unfold paramsEquals. by rewrite Href. }
  destruct x as [x|], y as [y|]; try done.
  rewrite !paramsSupersets_objects, (paramsEquals_objects x y Href).
  intros Hxy Hyx. split.
  - intros k Hk. split; [by apply Hyx|]. by apply Hxy, Hyx.
  - intros k Hk. by apply Hxy.
Qed.

Lemma mutual_supersets_equal_witness :
  paramsEquals (Some (mkParamsSpec 1 {[ "x" := JS.VBool true ]}))
               (Some (mkParamsSpec 2 {[ "x" := JS.VBool true ]})) = true.
Proof.
  apply (mutual_supersets_equal
           (Some (mkParamsSpec 1 {[ "x" := JS.VBool true ]}))
           (Some (mkParamsSpec 2 {[ "x" := JS.VBool true ]}))); by vm_compute.
Defined.

(** X7: two equal records that are not one and the same object are
    supersets of each other.  (A record holding [NaN] equals itself, being
    the same reference, without being a superset of itself.) *)
Theorem equal_records_are_mutual_supersets x y :
  same_reference x y = false → paramsEquals x y = true →
  paramsSupersets x y = true ∧ paramsSupersets y x = true.
Proof.
  intros Href. destruct x as [x|], y as [y|];
    try (unfold paramsEquals; rewrite Href; done).
  rewrite (paramsEquals_objects x y Href), !paramsSupersets_objects.
  intros [Hx Hy]. split.
  - intros k Hk. split; [by apply Hy|]. by apply Hx, Hy.
  - intros k Hk. split; [by apply Hx|]. rewrite strict_equals_sym. by apply Hx.
Qed.

Lemma equal_records_are_mutual_supersets_witness :
  paramsSupersets (Some (mkParamsSpec 1 {[ "x" := JS.VNumber 1%float ]}))
                  (Some (mkParamsSpec 2 {[ "x" := JS.VNumber 1%float ]})) = true ∧
  paramsSupersets (Some (mkParamsSpec 2 {[ "x" := JS.VNumber 1%float ]}))
                  (Some (mkParamsSpec 1 {[ "x" := JS.VNumber 1%float ]})) = true.
Proof.
  apply (equal_records_are_mutual_supersets
           (Some (mkParamsSpec 1 {[ "x" := JS.VNumber 1%float ]}))
           (Some (mkParamsSpec 2 {[ "x" := JS.VNumber 1%float ]}))); by vm_compute.
Defined.

Example NaN_record_is_not_its_own_superset :
  let x := Some (mkParamsSpec 1 {[ "x" := JS.VNumber nan ]}) in
  paramsEquals x x = true ∧ paramsSupersets x x = false.
Proof. by vm_compute. Qed.



End ParamsFacts.

(** ** The checklist tool *)

Module ChecklistFacts.
Import Checklist.

Section Main.
Context {TestQuery : Type}.
Variable suite : TestQuery → string.
Variable compareQueries : TestQuery → TestQuery → Ordering.
Variable loadCases : string → list TestQuery.

Abbreviation Run := (Run TestQuery).
Abbreviation Entry := (@Entry TestQuery).

(** A computation stops at the first of the violations [V]: it prints
    that one and no other and exits with status 1, or, when there is
    none, prints no violation and returns. *)
Definition stops_at_first {A} (r : Run A) (V : list (Line TestQuery)) : Prop :=
  reported r = take 1 V ∧
  (V = [] → ∃ a, r.2 = Returned a) ∧
  (V ≠ [] → r.2 = Exited 1).

Lemma ret_stops {A} (a : A) : stops_at_first (ret a) [].
Proof. repeat split; [by eexists | done]. Qed.

Lemma console_log_stops l :
  is_violation l = false → stops_at_first (console_log l) [].
Proof.
  intros Hl. repeat split; [|by eexists | done].
  unfold reported; simpl. rewrite filter_cons_False; [done|]. by rewrite Hl.
Qed.

Lemma die_stops {A} l V :
  is_violation l = true → stops_at_first (die (A:=A) l) (l :: V).
Proof.
  intros Hl. repeat split; [|done].
  unfold reported; simpl. by rewrite filter_cons_True.
Qed.

Lemma bind_stops {A B} (m : Run A) (f : A → Run B) V1 V2 :
  stops_at_first m V1 →
  (∀ a, m.2 = Returned a → stops_at_first (f a) V2) →
  stops_at_first (m ≫= f) (V1 ++ V2).
Proof.
  intros (Hrep & Hnil & Hcons) Hf.
  destruct m as [out [a|status]]; unfold mbind, Run_bind, bind; simpl in *.
  - destruct V1 as [|v V1]; [|by specialize (Hcons ltac:(done))].
    destruct (Hf a eq_refl) as (Hrep' & Hnil' & Hcons').
    destruct (f a) as [out' r']; simpl in *.
    unfold reported in *; simpl in *.
    repeat split; [|done..].
    unfold reported; simpl. by rewrite filter_app, Hrep, Hrep'.
  - destruct V1 as [|v V1]; [by destruct Hnil|].
    unfold reported in *; simpl in *.
    specialize (Hcons ltac:(done)) as [= ->].
    split; [|by split]. unfold reported; simpl. by rewrite Hrep, !take_0.
Qed.

Lemma stops_at_first_ext {A} (r : Run A) V V' :
  V = V' → stops_at_first r V → stops_at_first r V'.
Proof. by intros ->. Qed.

Lemma omap_ext {A B} (f g : A → option B) (l : list A) :
  (∀ x, f x = g x) → omap f l = omap g l.
Proof.
  intros Hfg. induction l as [|x l IH]; [done|].
  csimpl. by rewrite Hfg, IH.
Qed.

Lemma die_exits {A} (l : Line TestQuery) : (die (A:=A) l).2 = Exited 1.
Proof. done. Qed.

Abbreviation overlaps_inner := (overlaps_inner compareQueries).
Abbreviation overlaps_outer := (overlaps_outer compareQueries).
Abbreviation overlaps_of := (overlaps_of compareQueries).
Abbreviation all_overlaps := (all_overlaps compareQueries).
Abbreviation find_query := (find_query compareQueries).
Abbreviation caseloop := (caseloop compareQueries).
Abbreviation all_gaps := (all_gaps compareQueries loadCases).
Abbreviation check_suite := (check_suite compareQueries loadCases).
Abbreviation check_suites := (check_suites compareQueries loadCases).
Abbreviation main := (main suite compareQueries loadCases).
Abbreviation all_violations := (all_violations suite compareQueries loadCases).

(** The overlap test of the inner loop, on a query and its position. *)
Definition overlap_at (i : nat) (q1 : TestQuery) (je : nat * Entry)
    : option (Line TestQuery) :=
  if bool_decide (i ≠ je.1) && bool_decide (compareQueries q1 (query je.2) ≠ Unordered)
  then Some (OverlappingQueries q1 (query je.2)) else None.

Lemma overlaps_of_alt i q1 queries :
  overlaps_of i q1 queries = omap (overlap_at i q1) (imap pair queries).
Proof.
  unfold Checklist.overlaps_of. apply omap_ext. by intros [j e].
Qed.

Lemma overlaps_inner_stops i q1 j qs :
  stops_at_first (overlaps_inner i q1 j qs)
    (omap (overlap_at i q1) (imap (λ k e, (j + k, e)) qs)).
Proof.
  revert j. induction qs as [|e rest IH]; intros j; simpl.
  - apply ret_stops.
  - rewrite Nat.add_0_r. unfold overlap_at at 1; simpl.
    eapply stops_at_first_ext; last (eapply bind_stops; [|intros _ _; apply (IH (S j))]).
    + instantiate (1 := if bool_decide (i ≠ j)
                            && bool_decide (compareQueries q1 (query e) ≠ Unordered)
                        then [OverlappingQueries q1 (query e)] else []).
      rewrite (imap_ext (λ k e0, (S j + k, e0)) ((λ k e0, (j + k, e0)) ∘ S));
        [|intros; simpl; f_equal; lia].
      by destruct (_ && _).
    + destruct (_ && _); [by apply die_stops | apply ret_stops].
Qed.

Lemma overlaps_outer_stops i qs queries :
  stops_at_first (overlaps_outer i qs queries)
    (mjoin (imap (λ k e, overlaps_of (i + k) (query e) queries) qs)).
Proof.
  revert i. induction qs as [|e rest IH]; intros i; simpl.
  - apply ret_stops.
  - rewrite Nat.add_0_r.
    eapply stops_at_first_ext; last (eapply bind_stops; [|intros _ _; apply (IH (S i))]).
    + f_equal. f_equal. apply imap_ext. intros; simpl. f_equal. lia.
    + rewrite overlaps_of_alt. apply (overlaps_inner_stops i (query e) 0 queries).
Qed.

(** Bumping a count leaves the queries of the list as they were. *)
Lemma find_query_queries testcase queries queries' :
  find_query testcase queries = Some queries' →
  query <$> queries' = query <$> queries.
Proof.
  revert queries'. induction queries as [|q rest IH]; intros queries'; simpl; [done|].
  destruct (_ || _).
  - by intros [= <-].
  - destruct (find_query testcase rest) as [rest'|] eqn:Hrest; simpl; [|done].
    intros [= <-]. simpl. f_equal. by apply IH.
Qed.

Lemma find_query_covered testcase queries :
  is_Some (find_query testcase queries) ↔
  existsb (λ e, covers compareQueries (query e) testcase) queries = true.
Proof.
  induction queries as [|q rest IH]; simpl.
  - split; [by intros [? ?] | done].
  - unfold covers at 1. destruct (_ || _); simpl; [by split; eauto|].
    rewrite <- IH. by rewrite fmap_is_Some.
Qed.

Lemma existsb_queries (f : TestQuery → bool) (qs qs' : list Entry) :
  query <$> qs = query <$> qs' →
  existsb (λ e, f (query e)) qs = existsb (λ e, f (query e)) qs'.
Proof.
  revert qs'. induction qs as [|q qs IH]; intros [|q' qs']; simpl; try done.
  intros [= Hq Hqs]. by rewrite Hq, (IH qs').
Qed.

(** The gaps among the test cases [tcs] for the queries [queries]. *)
Definition gaps_of (tcs : list TestQuery) (queries : list Entry) : list (Line TestQuery) :=
  omap (λ testcase,
          if existsb (λ e, covers compareQueries (query e) testcase) queries then None
          else Some (NoQueryFound testcase)) tcs.

Lemma gaps_of_queries tcs (qs qs' : list Entry) :
  query <$> qs = query <$> qs' → gaps_of tcs qs = gaps_of tcs qs'.
Proof.
  intros Hq. unfold gaps_of. apply omap_ext. intros tc.
  by rewrite (existsb_queries (λ q, covers compareQueries q tc) qs qs').
Qed.

Lemma gaps_of_cons tc rest queries :
  gaps_of (tc :: rest) queries =
  (if existsb (λ e, covers compareQueries (query e) tc) queries then []
   else [NoQueryFound tc]) ++ gaps_of rest queries.
Proof. unfold gaps_of. csimpl. by destruct (existsb _ _). Qed.

Lemma caseloop_stops tcs queries :
  stops_at_first (caseloop tcs queries) (gaps_of tcs queries).
Proof.
  revert queries. induction tcs as [|tc rest IH]; intros queries.
  - apply ret_stops.
  - rewrite gaps_of_cons. simpl.
    pose proof (find_query_covered tc queries) as Hcov.
    destruct (find_query tc queries) as [queries'|] eqn:Hfind.
    + destruct (existsb _ queries) eqn:Hex;
        [|by destruct Hcov as [Hcov _]; discriminate Hcov].
      apply bind_stops; [apply ret_stops|]. intros ? [= <-].
      rewrite (gaps_of_queries rest queries queries'); [apply IH|].
      symmetry. by eapply find_query_queries.
    + destruct (existsb _ queries) eqn:Hex.
      { destruct Hcov as [_ Hcov]. by destruct Hcov. }
      apply bind_stops; [by apply die_stops|].
      intros a. by rewrite die_exits.
Qed.

Lemma report_unmatched_stops (queries : list Entry) :
  stops_at_first (report_unmatched queries) [].
Proof.
  induction queries as [|e rest IH]; simpl; [apply ret_stops|].
  apply (bind_stops _ _ [] []); [|by intros].
  destruct (bool_decide _); [by apply console_log_stops | apply ret_stops].
Qed.

Lemma check_suite_stops s queries :
  stops_at_first (check_suite s queries) (all_overlaps queries ++ all_gaps s queries).
Proof.
  unfold Checklist.check_suite.
  apply (stops_at_first_ext _
           ([] ++ [] ++ [] ++ all_overlaps queries ++ []
            ++ gaps_of (loadCases s) queries ++ [] ++ [])).
  { simpl. by rewrite !app_nil_r. }
  apply bind_stops; [by apply console_log_stops|intros _ _].
  apply bind_stops; [by apply console_log_stops|intros _ _].
  apply bind_stops; [by apply console_log_stops|intros _ _].
  apply bind_stops; [apply (overlaps_outer_stops 0)|intros _ _].
  apply bind_stops; [by apply console_log_stops|intros _ _].
  apply bind_stops; [apply caseloop_stops|intros queries' _].
  apply bind_stops; [by apply console_log_stops|intros _ _].
  apply report_unmatched_stops.
Qed.

Lemma check_suites_stops (m : list (string * list Entry)) :
  stops_at_first (check_suites m)
    (mjoin ((λ '(s, queries), all_overlaps queries ++ all_gaps s queries) <$> m)).
Proof.
  induction m as [|[s queries] rest IH]; simpl; [apply ret_stops|].
  apply bind_stops; [apply check_suite_stops | by intros].
Qed.

Lemma main_stops allQueries :
  stops_at_first (main allQueries) (all_violations allQueries).
Proof.
  unfold Checklist.main.
  apply (bind_stops _ _ []); [by apply console_log_stops|intros _ _].
  apply (bind_stops _ _ []); [by apply console_log_stops|intros _ _].
  apply check_suites_stops.
Qed.

(** C5, amended: the tool reports the first violation it meets and no
    other, and exits with status 1 at that point; it reports nothing and
    runs to its end exactly when the list has no overlap and no gap. *)
Theorem checklist_reports_only_first_violation allQueries :
  reported (main allQueries) = take 1 (all_violations allQueries) ∧
  ((main allQueries).2 = Exited 1 ↔ all_violations allQueries ≠ []) ∧
  ((main allQueries).2 = Returned tt ↔ all_violations allQueries = []).
Proof.
  destruct (main_stops allQueries) as (Hrep & Hnil & Hcons).
  split; [done|]. split; split.
  - intros Hexit HV. destruct (Hnil HV) as [a Ha]. congruence.
  - apply Hcons.
  - intros Hret. destruct (all_violations allQueries) eqn:HV; [done|].
    rewrite Hcons in Hret; done.
  - intros HV. by destruct (Hnil HV) as [[] ->].
Qed.

(** *** Grouping by suite *)

Abbreviation push_query := (push_query suite).
Abbreviation queriesBySuite := (queriesBySuite suite).

(** The entries [queriesBySuite] makes of the queries of suite [s]. *)
Definition entries_of (s : string) (qs : list TestQuery) : list Entry :=
  (λ q, mkEntry q 0) <$> filter (λ q, suite q = s) qs.

(** What holds of the map while [queriesBySuite] fills it. *)
Definition grouped (m : list (string * list Entry)) (qs : list TestQuery) : Prop :=
  NoDup m.*1 ∧
  (∀ s es, (s, es) ∈ m → es = entries_of s qs ∧ es ≠ []) ∧
  (∀ q, q ∈ qs → suite q ∈ m.*1).

Lemma entries_of_snoc s qs q :
  entries_of s (qs ++ [q])
  = entries_of s qs ++ (if decide (suite q = s) then [mkEntry q 0] else []).
Proof.
  unfold entries_of. rewrite filter_app, fmap_app. f_equal.
  rewrite filter_cons, filter_nil. by case_decide.
Qed.

Lemma push_query_keys q m :
  (push_query q m).*1 = if decide (suite q ∈ m.*1) then m.*1 else m.*1 ++ [suite q].
Proof.
  induction m as [|[s es] m IH]; csimpl.
  - done.
  - destruct (decide (s = suite q)) as [->|Hne]; csimpl.
    + rewrite decide_True; [done|]. by left.
    + rewrite IH. destruct (decide (suite q ∈ m.*1)) as [Hin|Hnotin].
      * rewrite decide_True; [done|]. by right.
      * rewrite decide_False; [done|]. rewrite not_elem_of_cons. split; [done|done].
Qed.

Lemma push_query_elem q m s es :
  NoDup m.*1 → (s, es) ∈ push_query q m →
  (s ≠ suite q ∧ (s, es) ∈ m) ∨
  (s = suite q ∧ ∃ es0, es = es0 ++ [mkEntry q 0] ∧
     ((s, es0) ∈ m ∨ (es0 = [] ∧ s ∉ m.*1))).
Proof.
  induction m as [|[s0 es0] m IH]; simpl.
  - intros _ [= -> ->]%list_elem_of_singleton. right. split; [done|].
    exists []. split; [done|]. right. split; [done|]. apply not_elem_of_nil.
  - intros [Hs0 Hnodup]%NoDup_cons.
    destruct (decide (s0 = suite q)) as [->|Hne].
    + intros [[= -> ->]|Hin]%elem_of_cons.
      * right. split; [done|]. exists es0. split; [done|]. left. by left.
      * left. split; [|by right]. intros ->. apply Hs0.
        apply list_elem_of_fmap. by exists (suite q, es).
    + intros [[= -> ->]|Hin]%elem_of_cons.
      * left. split; [done|]. by left.
      * destruct (IH Hnodup Hin) as [[Hs Hm]|[-> (es1 & -> & [Hm|[-> Hm]])]].
        -- left. split; [done|]. by right.
        -- right. split; [done|]. exists es1. split; [done|]. left. by right.
        -- right. split; [done|]. exists []. split; [done|]. right. split; [done|].
           rewrite not_elem_of_cons. by split.
Qed.

Lemma push_query_grouped q m qs : grouped m qs → grouped (push_query q m) (qs ++ [q]).
Proof.
  intros (Hnodup & Hgroups & Hall). split; [|split].
  - rewrite push_query_keys. case_decide as Hin; [done|].
    apply NoDup_app. split; [done|]. split; [|apply NoDup_singleton].
    intros s Hs Hs'%list_elem_of_singleton. by subst s.
  - intros s es Hin. rewrite entries_of_snoc.
    destruct (push_query_elem q m s es Hnodup Hin)
      as [[Hs Hm]|[-> (es0 & -> & [Hm|[-> Hm]])]].
    + rewrite decide_False by done. rewrite app_nil_r. by apply Hgroups.
    + rewrite decide_True by done. destruct (Hgroups _ _ Hm) as [-> _].
      split; [done|]. by destruct (entries_of _ _).
    + rewrite decide_True by done. split; [|done]. simpl.
      assert (entries_of (suite q) qs = []) as ->; [|done].
      unfold entries_of. destruct (filter _ qs) as [|q' l] eqn:Hf; [done|].
      assert (q' ∈ filter (λ q0, suite q0 = suite q) qs) as Hq' by (rewrite Hf; by left).
      apply list_elem_of_filter in Hq' as [Hsuite Hq']. destruct Hm.
      rewrite <- Hsuite. by apply Hall.
  - intros q' Hq'. rewrite push_query_keys.
    apply elem_of_app in Hq' as [Hq'|Hq'%list_elem_of_singleton].
    + case_decide; [by apply Hall|]. apply elem_of_app. left. by apply Hall.
    + subst q'. case_decide; [done|]. apply elem_of_app. right. by left.
Qed.

Lemma queriesBySuite_snoc qs q :
  queriesBySuite (qs ++ [q]) = push_query q (queriesBySuite qs).
Proof. unfold Checklist.queriesBySuite. by rewrite foldl_app. Qed.

(** X9: [queriesBySuite] lists every suite named by a query once, and under
    each suite exactly the queries of that suite, in the order of the list
    file, each with count 0; no suite has an empty group. *)
Theorem queriesBySuite_groups allQueries :
  NoDup (queriesBySuite allQueries).*1 ∧
  (∀ s, s ∈ (queriesBySuite allQueries).*1 ↔ ∃ q, q ∈ allQueries ∧ suite q = s) ∧
  (∀ s es, (s, es) ∈ queriesBySuite allQueries →
     es = (λ q, mkEntry q 0) <$> filter (λ q, suite q = s) allQueries).
Proof.
  assert (grouped (queriesBySuite allQueries) allQueries) as (Hnodup & Hgroups & Hall).
  { induction allQueries as [|q qs IH] using rev_ind.
    - split; [apply NoDup_nil_2|]. split; [by intros s es ?%elem_of_nil|].
      by intros q ?%elem_of_nil.
    - rewrite queriesBySuite_snoc. by apply push_query_grouped. }
  split; [done|]. split.
  - intros s. split.
    + intros [[s' es] [-> Hin]]%list_elem_of_fmap. simpl.
      destruct (Hgroups _ _ Hin) as [Hes Hne].
      unfold entries_of in Hes. destruct (filter _ allQueries) as [|q l] eqn:Hf.
      { by subst es. }
      assert (q ∈ filter (λ q0, suite q0 = s') allQueries) as Hq by (rewrite Hf; by left).
      apply list_elem_of_filter in Hq as [Hsuite Hq]. eauto.
    + intros (q & Hq & <-). by apply Hall.
  - intros s es Hin. by apply Hgroups.
Qed.

(** *** A list without violations *)

(** [q.count++] *)
Definition bump (e : Entry) : Entry := mkEntry (query e) (S (count e)).

(** The position of the first query of the list that covers a test case. *)
Fixpoint first_cover (tc : TestQuery) (queries : list Entry) : option nat :=
  match queries with
  | [] => None
  | q :: rest =>
      if covers compareQueries (query q) tc then Some 0 else S <$> first_cover tc rest
  end.

(** The number of test cases counted for the query at position [i]. *)
Definition counted_for (tcs : list TestQuery) (queries : list Entry) (i : nat) : nat :=
  length (filter (λ tc, first_cover tc queries = Some i) tcs).

Lemma find_query_first_cover tc queries :
  find_query tc queries = (λ i, alter bump i queries) <$> first_cover tc queries.
Proof.
  induction queries as [|q rest IH]; simpl; [done|].
  unfold covers at 1. destruct (_ || _); [done|].
  rewrite IH. by destruct (first_cover tc rest).
Qed.

Lemma first_cover_queries tc (qs qs' : list Entry) :
  query <$> qs = query <$> qs' → first_cover tc qs = first_cover tc qs'.
Proof.
  revert qs'. induction qs as [|q qs IH]; intros [|q' qs']; simpl; try done.
  intros [= Hq Hqs]. by rewrite Hq, (IH qs').
Qed.

Lemma counted_for_queries tcs (qs qs' : list Entry) i :
  query <$> qs = query <$> qs' → counted_for tcs qs i = counted_for tcs qs' i.
Proof.
  intros Hq. unfold counted_for. f_equal. apply list_filter_iff.
  intros tc. by rewrite (first_cover_queries tc qs qs').
Qed.

Lemma query_alter_bump i (queries : list Entry) :
  query <$> alter bump i queries = query <$> queries.
Proof.
  rewrite (list_fmap_alter query bump id); [by rewrite list_alter_id|].
  by apply Forall_forall.
Qed.

(** X10: when the loop over the test cases runs to its end it has printed
    nothing, and it has counted every test case once, for the first query
    of the list that covers it; the queries themselves are unchanged. *)
Theorem caseloop_counts tcs queries out queries' :
  caseloop tcs queries = (out, Returned queries') →
  out = [] ∧ length queries' = length queries ∧
  ∀ i e, queries !! i = Some e →
    queries' !! i = Some (mkEntry (query e) (count e + counted_for tcs queries i)).
Proof.
  revert queries out. induction tcs as [|tc rest IH]; intros queries out.
  - intros [= <- <-]. repeat split; try done. intros i [q c] ->. simpl.
    unfold counted_for. simpl. by rewrite Nat.add_0_r.
  - simpl. rewrite find_query_first_cover.
    destruct (first_cover tc queries) as [i0|] eqn:Hfirst; simpl; [|done].
    unfold mbind, Run_bind, bind, ret.
    destruct (caseloop rest (alter bump i0 queries)) as [out' res] eqn:Hrest.
    intros [= <- ->].
    destruct (IH _ _ Hrest) as (-> & Hlen & Hcounts).
    repeat split; [by rewrite Hlen, length_alter|].
    intros i e Hi.
    assert (counted_for rest (alter bump i0 queries) i = counted_for rest queries i) as Hc.
    { apply counted_for_queries, query_alter_bump. }
    destruct (decide (i0 = i)) as [->|Hne].
    + rewrite (Hcounts i (bump e)), Hc by (by rewrite list_lookup_alter_eq, Hi).
      unfold counted_for. rewrite filter_cons, decide_True by done.
      simpl. do 2 f_equal. lia.
    + rewrite (Hcounts i e), Hc by (by rewrite list_lookup_alter_ne).
      unfold counted_for. rewrite filter_cons, decide_False by congruence. done.
Qed.

Lemma overlaps_inner_quiet i q1 j qs :
  omap (overlap_at i q1) (imap (λ k e, (j + k, e)) qs) = [] →
  overlaps_inner i q1 j qs = ([], Returned tt).
Proof.
  revert j. induction qs as [|e rest IH]; intros j; [done|].
  rewrite imap_cons. csimpl. rewrite Nat.add_0_r. unfold overlap_at at 1. simpl.
  rewrite (imap_ext _ (λ k e0, (S j + k, e0))) by (intros; simpl; f_equal; lia).
  destruct (_ && _); [done|]. intros Hrest%IH.
  unfold mbind, Run_bind, bind, ret. by rewrite Hrest.
Qed.

Lemma overlaps_outer_quiet i qs queries :
  mjoin (imap (λ k e, overlaps_of (i + k) (query e) queries) qs) = [] →
  overlaps_outer i qs queries = ([], Returned tt).
Proof.
  revert i. induction qs as [|e rest IH]; intros i; [done|].
  rewrite imap_cons. csimpl. rewrite Nat.add_0_r.
  rewrite (imap_ext _ (λ k e0, overlaps_of (S i + k) (query e0) queries))
    by (intros; simpl; f_equal; lia).
  intros [Hhere Hrest%IH]%app_eq_nil.
  rewrite overlaps_of_alt in Hhere.
  unfold mbind, Run_bind, bind.
  by rewrite (overlaps_inner_quiet i (query e) 0 queries Hhere), Hrest.
Qed.

(** The queries that [report_unmatched] prints, given the count of each
    position. *)
Definition unmatched_at (n : nat → nat) (ie : nat * Entry) : option (Line TestQuery) :=
  if decide (n ie.1 = 0) then Some (UnmatchedQuery (query ie.2)) else None.

Lemma report_unmatched_counts (n : nat → nat) j (qs : list Entry) :
  report_unmatched (imap (λ k e, mkEntry (query e) (n (j + k))) qs)
  = (omap (unmatched_at n) (imap (λ k e, (j + k, e)) qs), Returned tt).
Proof.
  revert j. induction qs as [|e rest IH]; intros j; [done|].
  rewrite !imap_cons. csimpl. rewrite Nat.add_0_r.
  rewrite (imap_ext _ (λ k e0, mkEntry (query e0) (n (S j + k))))
    by (intros; simpl; do 2 f_equal; lia).
  rewrite (imap_ext ((λ k e0, (j + k, e0)) ∘ S) (λ k e0, (S j + k, e0)))
    by (intros; simpl; f_equal; lia).
  rewrite IH. unfold unmatched_at at 2. simpl.
  unfold mbind, Run_bind, bind, console_log, ret.
  destruct (decide (n j = 0)) as [Hn|Hn].
  - by rewrite bool_decide_eq_true_2.
  - by rewrite bool_decide_eq_false_2.
Qed.

(** X11: for a list without overlaps and without gaps the check of a suite
    runs to its end; it prints the five progress lines and then, in list
    order, exactly the queries for which no test case was counted, that is,
    the queries that are for no test case the first one to cover it. *)
Theorem check_suite_without_violations s queries :
  Forall (λ e, count e = 0) queries →
  all_overlaps queries = [] → all_gaps s queries = [] →
  check_suite s queries
  = ([ SuiteHeader s; FoundCases (length (loadCases s));
       CheckingOverlaps (length queries); CheckingContents; CheckingUnmatched ]
     ++ omap (unmatched_at (counted_for (loadCases s) queries)) (imap pair queries),
     Returned tt).
Proof.
  intros Hzero Hoverlaps Hgaps. unfold Checklist.check_suite.
  rewrite (overlaps_outer_quiet 0 queries queries Hoverlaps).
  destruct (caseloop_stops (loadCases s) queries) as (_ & Hret & _).
  destruct (Hret Hgaps) as [queries' Hqueries'].
  destruct (caseloop (loadCases s) queries) as [out res] eqn:Hloop.
  simpl in Hqueries'. subst res.
  destruct (caseloop_counts _ _ _ _ Hloop) as (-> & Hlen & Hcounts).
  assert (queries' = imap (λ k e, mkEntry (query e)
                                    (counted_for (loadCases s) queries (0 + k))) queries)
    as ->.
  { apply list_eq. intros i. rewrite list_lookup_imap.
    destruct (queries !! i) as [e|] eqn:Hi; simpl.
    - rewrite (Hcounts i e Hi). do 2 f_equal.
      eapply Forall_lookup_1 in Hzero; [|done]. simpl in Hzero. by rewrite Hzero.
    - apply lookup_ge_None. apply lookup_ge_None in Hi. lia. }
  unfold mbind, Run_bind, bind, console_log.
  by rewrite (report_unmatched_counts (counted_for (loadCases s) queries) 0 queries).
Qed.

End Main.

(** *** An example with two violations *)

(** Modelled from the spec: framework/query/compare.ts is not among the
    sources.  For the example a query is a suite and a path, and two
    queries of a suite are ordered by the prefix order of their paths, the
    shorter path denoting the larger set of cases. *)
Definition PathQuery : Type := string * list string.

Fixpoint comparePaths (a b : list string) : Ordering :=
  match a, b with
  | [], [] => Equal
  | [], _ :: _ => StrictSuperset
  | _ :: _, [] => StrictSubset
  | x :: a, y :: b => if decide (x = y) then comparePaths a b else Unordered
  end.

Definition comparePathQueries (a b : PathQuery) : Ordering :=
  if decide (a.1 = b.1) then comparePaths a.2 b.2 else Unordered.

(** The list file names [s:a] and [s:a,b]; the suite has the one case
    [s:c,t]. *)
Definition example_list : list PathQuery := [("s", ["a"]); ("s", ["a"; "b"])].
Definition example_cases (s : string) : list PathQuery := [("s", ["c"; "t"])].

(** C5 as stated fails: the input has two overlaps and a gap, and only the
    first overlap is reported before the tool exits. *)
Lemma checklist_stops_at_first_violation :
  all_violations fst comparePathQueries example_cases example_list =
    [ OverlappingQueries ("s", ["a"]) ("s", ["a"; "b"]);
      OverlappingQueries ("s", ["a"; "b"]) ("s", ["a"]);
      NoQueryFound ("s", ["c"; "t"]) ] ∧
  reported (main fst comparePathQueries example_cases example_list) =
    [ OverlappingQueries ("s", ["a"]) ("s", ["a"; "b"]) ] ∧
  (main fst comparePathQueries example_cases example_list).2 = Exited 1.
Proof. by vm_compute. Qed.

(** *** An example without violations *)

(** The list file names [s:a] and [s:b]; the suite has the one case
    [s:a,t]. *)
Definition clean_list : list (@Entry PathQuery) :=
  [mkEntry ("s", ["a"]) 0; mkEntry ("s", ["b"]) 0].
Definition clean_cases (s : string) : list PathQuery := [("s", ["a"; "t"])].

Lemma caseloop_counts_witness :
  ([] : list (Line PathQuery)) = [] ∧
  length [mkEntry ("s", ["a"]) 1; mkEntry ("s", ["b"]) 0] = length clean_list ∧
  ∀ i e, clean_list !! i = Some e →
    [mkEntry ("s", ["a"]) 1; mkEntry ("s", ["b"]) 0] !! i
    = Some (mkEntry (query e)
              (count e + counted_for comparePathQueries (clean_cases "s") clean_list i)).
Proof.
  apply (caseloop_counts comparePathQueries (clean_cases "s") clean_list).
  reflexivity.
Defined.

Lemma check_suite_without_violations_witness :
  check_suite comparePathQueries clean_cases "s" clean_list
  = ([ SuiteHeader "s"; FoundCases (length (clean_cases "s"));
       CheckingOverlaps (length clean_list); CheckingContents; CheckingUnmatched ]
     ++ omap (unmatched_at (counted_for comparePathQueries (clean_cases "s") clean_list))
          (imap pair clean_list),
     Returned tt).
Proof.
  apply (check_suite_without_violations comparePathQueries clean_cases "s" clean_list).
  - repeat constructor.
  - reflexivity.
  - reflexivity.
Defined.

(** In the example the query [s:b] is the one reported. *)
Example clean_list_unmatched :
  omap (unmatched_at (counted_for comparePathQueries (clean_cases "s") clean_list))
       (imap pair clean_list)
  = [UnmatchedQuery ("s", ["b"])].
Proof. reflexivity. Qed.

End ChecklistFacts.

(** ** The device pool *)

Module DevicePoolFacts.
Import DevicePool.

(** *** The store *)

Lemma store_update_holder f r m : store (update_holder f r m) = alter f r (store m).
Proof. done. Qed.

Lemma length_store_update_holder f r m :
  length (store (update_holder f r m)) = length (store m).
Proof. apply length_alter. Qed.

Lemma lookup_update_holder f r r' m :
  store (update_holder f r m) !! r' =
  if decide (r = r') then f <$> store m !! r' else store m !! r'.
Proof.
  rewrite store_update_holder. case_decide as Hr.
  - subst. apply list_lookup_alter_eq.
  - by apply list_lookup_alter_ne.
Qed.

(** A field update that leaves the device of a holder alone. *)
Definition keeps_device (f : DeviceHolder → DeviceHolder) : Prop :=
  ∀ h, device (f h) = device h.

Lemma set_state_keeps_device s : keeps_device (set_state s).
Proof. done. Qed.

Lemma set_expectedLostReason_keeps_device x : keeps_device (set_expectedLostReason x).
Proof. done. Qed.

Lemma notify_lost_keeps_device ev : keeps_device (notify_lost ev).
Proof. intros h. unfold notify_lost. by destruct (lostInfo h), ev. Qed.

Local Hint Resolve set_state_keeps_device set_expectedLostReason_keeps_device
  notify_lost_keeps_device : core.

(** Every holder wraps the device that was requested for it: devices and
    holders are created together, one for one. *)
Definition heap_wf (m : Heap) : Prop :=
  ∀ r h, store m !! r = Some h → device h = r.

Lemma heap_wf_update f r m : keeps_device f → heap_wf m → heap_wf (update_holder f r m).
Proof.
  intros Hf Hm r' h. rewrite lookup_update_holder. case_decide; [|by apply Hm].
  destruct (store m !! r') as [h0|] eqn:Hh0; [|done].
  intros [= <-]. rewrite Hf. by apply Hm.
Qed.

Lemma heap_wf_log_call c m : heap_wf m → heap_wf (log_call c m).
Proof. done. Qed.

Lemma device_is_ref m r r' h :
  heap_wf m → store m !! r = Some h →
  device_is m r' (device h) = bool_decide (r' = r ∧ r' < length (store m)).
Proof.
  intros Hm Hr. unfold device_is. rewrite (Hm _ _ Hr).
  destruct (store m !! r') as [h'|] eqn:Hr'; simpl.
  - rewrite (Hm _ _ Hr'). apply lookup_lt_Some in Hr'.
    apply bool_decide_ext. split; [intros [= ->]; done | intros [-> _]; done].
  - apply lookup_ge_None in Hr'. apply lookup_lt_Some in Hr.
    symmetry. apply bool_decide_eq_false_2. lia.
Qed.

(** *** DeviceHolder.create *)

Lemma create_store m descriptor env m' res :
  create m descriptor env = (m', res) →
  match res with
  | Ok value =>
      value = length (store m) ∧
      store m' = store m ++ [mkDeviceHolder (length (store m)) free None None]
  | Throw _ => store m' = store m
  end ∧ calls m' = calls m ++ [CallCreate descriptor].
Proof.
  unfold create. intros Hc.
  destruct (requestAdapter env) as [adapter|]; [|by injection Hc as <- <-].
  destruct (negb _); [by injection Hc as <- <-|].
  destruct (requestDevice adapter) as [[]|]; by injection Hc as <- <-.
Qed.

Lemma create_heap_wf m descriptor env m' res :
  create m descriptor env = (m', res) → heap_wf m → heap_wf m'.
Proof.
  intros Hc Hm. apply create_store in Hc as [Hst _].
  destruct res as [value|ex]; intros r h.
  - destruct Hst as [_ ->].
    intros [[_ Hr]|[-> <-]]%lookup_snoc_Some; [by apply Hm|done].
  - rewrite Hst. apply Hm.
Qed.

(** *** The search for a free holder *)

Definition busy (m : Heap) (e : string * Ref) : Prop := state_is m e.2 free = false.

Lemma find_free_Some m j hs i e :
  find_free m j hs = Some (i, e) →
  ∃ pre post,
    hs = pre ++ e :: post ∧ i = j + length pre ∧
    state_is m e.2 free = true ∧ Forall (busy m) pre.
Proof.
  revert j. induction hs as [|[key holder] rest IH]; intros j; simpl; [done|].
  destruct (state_is m holder free) eqn:Hfree.
  - intros [= <- <-]. exists [], rest. simpl. repeat split; [lia|done|done].
  - intros (pre & post & -> & -> & Hf & Hpre)%IH.
    exists ((key, holder) :: pre), post. simpl. repeat split; [lia|done|].
    by constructor.
Qed.

Lemma find_free_None m j hs : find_free m j hs = None → Forall (busy m) hs.
Proof.
  revert j. induction hs as [|[key holder] rest IH]; intros j; simpl; [done|].
  destruct (state_is m holder free) eqn:Hfree; [done|].
  intros Hrest%IH. by constructor.
Qed.

Lemma delete_middle {A} (pre post : list A) e :
  delete (length pre) (pre ++ e :: post) = pre ++ post.
Proof. induction pre as [|x pre IH]; simpl; [done|]. by rewrite IH. Qed.

(** *** deleteByDevice *)

Lemma deleteByDevice_loop_sublist m d hs : deleteByDevice_loop m d hs `sublist_of` hs.
Proof.
  induction hs as [|[key holder] rest IH]; simpl; [done|].
  destruct (device_is m holder d).
  - by apply sublist_cons.
  - by apply sublist_skip.
Qed.

(** In a pool whose entries are distinct holders, [deleteByDevice] with the
    device of a holder removes exactly that holder. *)
Lemma deleteByDevice_loop_removes m r h hs :
  heap_wf m → store m !! r = Some h → NoDup hs.*2 →
  r ∉ (deleteByDevice_loop m (device h) hs).*2.
Proof.
  intros Hm Hr. induction hs as [|[key holder] rest IH]; simpl.
  - intros _. apply not_elem_of_nil.
  - intros [Hnotin Hnodup]%NoDup_cons.
    rewrite (device_is_ref m r holder h Hm Hr).
    case_bool_decide as Hholder.
    + destruct Hholder as [-> _]. done.
    + simpl. apply not_elem_of_cons. split; [|by apply IH].
      intros ->. apply Hholder. split; [done|]. by eapply lookup_lt_Some.
Qed.

(** *** Well-formed pools *)

Record pool_wf (this : DeviceHolderPool) (m : Heap) : Prop := {
  wf_refs : ∀ e, e ∈ holders this → e.2 < length (store m);
  wf_nodup : NoDup (holders this).*2;
  wf_bound : length (holders this) ≤ poolSize this;
}.

Lemma pool_wf_update f r this m :
  pool_wf this m → pool_wf this (update_holder f r m).
Proof.
  intros [H1 H2 H3]. split; try done.
  intros e He. rewrite length_store_update_holder. by apply H1.
Qed.

Lemma pool_wf_log_call c this m : pool_wf this m → pool_wf this (log_call c m).
Proof. by intros [H1 H2 H3]. Qed.

Lemma pool_wf_sublist this m hs :
  hs `sublist_of` holders this → pool_wf this m → pool_wf (set_holders hs this) m.
Proof.
  intros Hsub [H1 H2 H3]. split; simpl.
  - intros e He. apply H1. by eapply elem_of_sublist.
  - eapply sublist_NoDup; [done|]. by apply fmap_sublist.
  - apply sublist_length in Hsub. lia.
Qed.

Lemma insertAndCleanUp_holders key holder this :
  let hs := holders this ++ [(key, holder)] in
  holders (insertAndCleanUp key holder this) =
    if decide (poolSize this < length hs) then tail hs else hs.
Proof. unfold insertAndCleanUp. simpl. by case_decide. Qed.

Lemma insertAndCleanUp_poolSize key holder this :
  poolSize (insertAndCleanUp key holder this) = poolSize this.
Proof. unfold insertAndCleanUp. simpl. by case_decide. Qed.

Lemma insertAndCleanUp_unsupported key holder this :
  unsupported (insertAndCleanUp key holder this) = unsupported this.
Proof. unfold insertAndCleanUp. simpl. by case_decide. Qed.

Lemma insertAndCleanUp_sublist key holder this :
  holders (insertAndCleanUp key holder this) `sublist_of` holders this ++ [(key, holder)].
Proof.
  rewrite insertAndCleanUp_holders. simpl. case_decide; [|done].
  destruct (holders this ++ _); simpl; [done|]. by apply sublist_cons.
Qed.

Lemma insertAndCleanUp_length key holder this :
  length (holders this) ≤ poolSize this →
  length (holders (insertAndCleanUp key holder this)) ≤ poolSize this.
Proof.
  intros Hlen. rewrite insertAndCleanUp_holders. simpl.
  case_decide as Hgt; [|lia].
  rewrite length_app in Hgt. simpl in Hgt.
  destruct (holders this) as [|e rest]; simpl in *; [lia|].
  rewrite length_app. simpl. lia.
Qed.

Section Pool.
Variable kLimits : list string.
Variable kLimitDefault : string → nat.

Abbreviation canonicalizeDescriptor := (canonicalizeDescriptor kLimits kLimitDefault).
Abbreviation getOrCreate := (getOrCreate kLimits kLimitDefault).
Abbreviation reserve_holder := (reserve_holder kLimits kLimitDefault).
Abbreviation reserve := (reserve kLimits kLimitDefault).
Abbreviation step := (step kLimits kLimitDefault).
Abbreviation reachable := (reachable kLimits kLimitDefault).

(** The canonical key of a request. *)
Definition key_of (desc : option UncanonicalizedDeviceDescriptor) : string :=
  (canonicalizeDescriptor desc).2.

(** The ways [getOrCreate] can go. *)
Inductive getOrCreate_case (this : DeviceHolderPool) (m : Heap)
    (desc : option UncanonicalizedDeviceDescriptor) (env : CreateEnv)
    : DeviceHolderPool → Heap → Result Ref → Prop :=
  | known_unsupported msg :
      key_of desc ∈ unsupported this →
      getOrCreate_case this m desc env this m (Throw (SkipTestCase msg))
  | reused pre key holder post :
      key_of desc ∉ unsupported this →
      holders this = pre ++ (key, holder) :: post →
      Forall (busy m) pre →
      state_is m holder free = true →
      getOrCreate_case this m desc env
        (set_holders (pre ++ post ++ [(key, holder)]) this) m (Ok holder)
  | newly_unsupported m' msg msg' :
      key_of desc ∉ unsupported this →
      Forall (busy m) (holders this) →
      create m (canonicalizeDescriptor desc).1 env = (m', Throw (FeaturesNotSupported msg)) →
      getOrCreate_case this m desc env
        (mkPool (poolSize this) ({[ key_of desc ]} ∪ unsupported this) (holders this))
        m' (Throw (SkipTestCase msg'))
  | creation_failed m' ex :
      key_of desc ∉ unsupported this →
      Forall (busy m) (holders this) →
      create m (canonicalizeDescriptor desc).1 env = (m', Throw ex) →
      isFeaturesNotSupported ex = false →
      getOrCreate_case this m desc env this m' (Throw ex)
  | created m' value :
      key_of desc ∉ unsupported this →
      Forall (busy m) (holders this) →
      create m (canonicalizeDescriptor desc).1 env = (m', Ok value) →
      getOrCreate_case this m desc env
        (insertAndCleanUp (key_of desc) value this) m' (Ok value).

Lemma getOrCreate_cases this m desc env this' m' res :
  getOrCreate this m desc env = (this', m', res) →
  getOrCreate_case this m desc env this' m' res.
Proof.
  unfold DevicePool.getOrCreate.
  destruct (canonicalizeDescriptor desc) as [descriptor key] eqn:Hcanon.
  assert (key = key_of desc) as -> by (unfold key_of; by rewrite Hcanon).
  assert (descriptor = (canonicalizeDescriptor desc).1) as Hd by (by rewrite Hcanon).
  clear Hcanon. case_decide as Hkey.
  { intros [= <- <- <-]. by apply known_unsupported. }
  destruct (find_free m 0 (holders this)) as [[i [key' holder]]|] eqn:Hfind.
  - apply find_free_Some in Hfind as (pre & post & Hhs & -> & Hfree & Hpre).
    intros [= <- <- <-]. rewrite Hhs at 1. simpl.
    rewrite delete_middle, <- (assoc_L (++)).
    by eapply reused.
  - apply find_free_None in Hfind.
    destruct (create m descriptor env) as [m1 [value|ex]] eqn:Hcreate; subst descriptor.
    + intros [= <- <- <-]. by apply created.
    + destruct (isFeaturesNotSupported ex) eqn:Hex; intros [= <- <- <-].
      * destruct ex; try discriminate. by eapply newly_unsupported.
      * by apply creation_failed.
Qed.

Lemma find_free_first m j pre key holder post :
  Forall (busy m) pre → state_is m holder free = true →
  find_free m j (pre ++ (key, holder) :: post) = Some (j + length pre, (key, holder)).
Proof.
  intros Hpre Hfree. revert j.
  induction Hpre as [|[k0 r0] pre Hbusy _ IH]; intros j; simpl.
  - by rewrite Hfree, Nat.add_0_r.
  - unfold busy in Hbusy. simpl in Hbusy. rewrite Hbusy, IH. do 2 f_equal. lia.
Qed.

(** What the search does: unless the key is known to be unsupported, the
    first free holder of the list is returned and moved to the end, whatever
    key it was stored under and whatever key is asked for. *)
Lemma getOrCreate_reuses_first_free this m desc env pre key holder post :
  key_of desc ∉ unsupported this →
  holders this = pre ++ (key, holder) :: post →
  Forall (busy m) pre → state_is m holder free = true →
  getOrCreate this m desc env
    = (set_holders (pre ++ post ++ [(key, holder)]) this, m, Ok holder).
Proof.
  intros Hkey Hhs Hpre Hfree. unfold DevicePool.getOrCreate, key_of in *.
  destruct (canonicalizeDescriptor desc) as [descriptor k]. simpl in Hkey.
  rewrite decide_False by done.
  rewrite Hhs, (find_free_first m 0 pre key holder post Hpre Hfree). simpl.
  by rewrite delete_middle, <- (assoc_L (++)).
Qed.

Lemma getOrCreate_length this m desc env this' m' res :
  getOrCreate this m desc env = (this', m', res) →
  length (store m) ≤ length (store m').
Proof.
  intros Hg%getOrCreate_cases.
  destruct Hg as [| |m' ? ? _ _ Hc|m' ? _ _ Hc _|m' ? _ _ Hc]; try done;
    apply create_store in Hc as [Hst _].
  - by rewrite Hst.
  - by rewrite Hst.
  - destruct Hst as [_ ->]. rewrite length_app. lia.
Qed.

(** The entries of the pool after [getOrCreate] are entries it had, or
    the holder just created. *)
Lemma getOrCreate_holders this m desc env this' m' res e :
  getOrCreate this m desc env = (this', m', res) →
  e ∈ holders this' → e ∈ holders this ∨ e.2 = length (store m).
Proof.
  intros Hg%getOrCreate_cases.
  destruct Hg as [|pre key holder post _ Hhs _ _| | |m' value _ _ Hc]; simpl; auto.
  - rewrite Hhs, !elem_of_app, !elem_of_cons.
    intros [?|[?|[?|[]%elem_of_nil]]]; auto.
  - intros He. eapply elem_of_sublist in He; [|apply insertAndCleanUp_sublist].
    apply create_store in Hc as [[-> _] _].
    apply elem_of_app in He as [He|He]; [by left|right].
    by apply list_elem_of_singleton in He as ->.
Qed.

(** The holder [getOrCreate] returns is free, and is one the pool had or
    the one just created. *)
Lemma getOrCreate_result this m desc env this' m' r :
  getOrCreate this m desc env = (this', m', Ok r) →
  state_is m' r free = true ∧
  ((∃ key, (key, r) ∈ holders this) ∨ r = length (store m)).
Proof.
  intros Hg%getOrCreate_cases. remember (Ok r) as res eqn:Hres.
  destruct Hg as [|pre key holder post Hk Hhs Hpre Hfree| | |? ? Hk Hbusy Hc];
    try discriminate; injection Hres as ->.
  - split; [done|]. left. exists key. rewrite Hhs, elem_of_app, elem_of_cons. auto.
  - apply create_store in Hc as [[-> Hst] _]. split; [|by right].
    unfold state_is. rewrite Hst, lookup_app_r, Nat.sub_diag by done. done.
Qed.

Lemma getOrCreate_unsupported this m desc env this' m' res :
  getOrCreate this m desc env = (this', m', res) →
  unsupported this ⊆ unsupported this' ∧ poolSize this' = poolSize this.
Proof.
  intros Hg%getOrCreate_cases. destruct Hg; simpl; try done.
  - split; [set_solver|done].
  - by rewrite insertAndCleanUp_unsupported, insertAndCleanUp_poolSize.
Qed.

Lemma getOrCreate_wf this m desc env this' m' res :
  getOrCreate this m desc env = (this', m', res) →
  heap_wf m → pool_wf this m → heap_wf m' ∧ pool_wf this' m'.
Proof.
  intros Hg%getOrCreate_cases Hm Hp.
  destruct Hg as [|pre key holder post _ Hhs _ _|m' ? ? _ _ Hc|m' ? _ _ Hc _|m' value _ _ Hc];
    try done.
  - split; [done|]. destruct Hp as [H1 H2 H3].
    assert (pre ++ post ++ [(key, holder)] ≡ₚ holders this) as Hperm.
    { rewrite Hhs. by rewrite (assoc_L (++)), <- Permutation_cons_append,
        Permutation_middle. }
    split; simpl.
    + intros e He. apply H1. by rewrite <- Hperm.
    + by rewrite Hperm.
    + by rewrite Hperm.
  - split; [by eapply create_heap_wf|].
    apply create_store in Hc as [Hst _]. destruct Hp as [H1 H2 H3].
    split; simpl; try done. by rewrite Hst.
  - split; [by eapply create_heap_wf|].
    apply create_store in Hc as [Hst _]. destruct Hp as [H1 H2 H3].
    split; simpl; try done. by rewrite Hst.
  - split; [by eapply create_heap_wf|].
    apply create_store in Hc as [[-> Hst] _]. destruct Hp as [H1 H2 H3].
    pose proof (insertAndCleanUp_sublist (key_of desc) (length (store m)) this) as Hsub.
    split.
    + intros e He. eapply elem_of_sublist in He; [|exact Hsub].
      rewrite Hst, length_app. simpl.
      apply elem_of_app in He as [He|He].
      * apply H1 in He. lia.
      * apply list_elem_of_singleton in He as ->. simpl. lia.
    + eapply sublist_NoDup; [|by apply fmap_sublist].
      rewrite fmap_app. simpl. apply NoDup_app. split; [done|]. split.
      * intros r [e [-> He]]%list_elem_of_fmap Hr.
        apply list_elem_of_singleton in Hr. apply H1 in He. lia.
      * apply NoDup_singleton.
    + rewrite insertAndCleanUp_poolSize. by apply insertAndCleanUp_length.
Qed.

End Pool.

(** *** Releasing *)

(** A field update that may change the state and the loss notification of
    a holder, and nothing else. *)
Definition lifecycle_update (f : DeviceHolder → DeviceHolder) : Prop :=
  ∀ h, device (f h) = device h ∧ expectedLostReason (f h) = expectedLostReason h.

Lemma lifecycle_update_keeps_device f : lifecycle_update f → keeps_device f.
Proof. intros Hf h. apply Hf. Qed.

Lemma lifecycle_id : lifecycle_update id.
Proof. done. Qed.

Lemma lifecycle_set_state s : lifecycle_update (set_state s).
Proof. done. Qed.

Lemma lifecycle_notify_lost ev : lifecycle_update (notify_lost ev).
Proof. intros h. unfold notify_lost. by destruct (lostInfo h), ev. Qed.

Lemma lifecycle_compose f g :
  lifecycle_update f → lifecycle_update g → lifecycle_update (f ∘ g).
Proof.
  intros Hf Hg h. simpl. destruct (Hf (g h)) as [-> ->]. apply Hg.
Qed.

Local Hint Resolve lifecycle_id lifecycle_set_state lifecycle_notify_lost
  lifecycle_compose : core.

Lemma update_holder_compose f g r m :
  update_holder f r (update_holder g r m) = update_holder (f ∘ g) r m.
Proof. unfold update_holder. simpl. by rewrite list_alter_alter_eq. Qed.

Lemma update_holder_id r m : update_holder id r m = m.
Proof. destruct m. unfold update_holder. simpl. by rewrite list_alter_id. Qed.

Lemma ensureRelease_try_shape m r env m' res :
  ensureRelease_try m r env = (m', res) →
  m' = (if state_is m r acquired
        then update_holder (notify_lost (lost_while_draining env)) r m else m).
Proof.
  unfold ensureRelease_try. destruct (state_is m r acquired); [|by intros [= <- _]].
  cbv zeta. destruct (store (update_holder _ r m) !! r); by intros [= <- _].
Qed.

Lemma ensureRelease_shape m r env m' res :
  ensureRelease m r env = (m', res) →
  ∃ f, lifecycle_update f ∧ m' = update_holder f r m.
Proof.
  unfold ensureRelease. destruct (assert _ _).
  - destruct (ensureRelease_try m r env) as [m1 res1] eqn:Ht.
    apply ensureRelease_try_shape in Ht as ->. intros [= <- _].
    destruct (state_is m r acquired); [rewrite update_holder_compose|]; eauto.
  - intros [= <- _]. exists id. by rewrite update_holder_id.
Qed.

Lemma release_try_shape m r env m' res :
  release_try m r env = (m', res) →
  ∃ f, lifecycle_update f ∧ m' = update_holder f r m.
Proof.
  unfold release_try.
  destruct (ensureRelease m r env) as [m1 res1] eqn:He.
  apply ensureRelease_shape in He as (f & Hf & ->).
  rewrite update_holder_compose.
  intros Hres. exists (notify_lost (lost_after_draining env) ∘ f). split; [auto|].
  destruct res1; [destruct (lostInfo <$> _) as [[?|]|]|]; by injection Hres as <- _.
Qed.

(** After the [try] block the holder is free, whatever the block did. *)
Lemma release_try_free m r env m' res h :
  store m !! r = Some h → state h ≠ free →
  release_try m r env = (m', res) →
  ∃ h', store m' !! r = Some h' ∧ state h' = free ∧
        device h' = device h ∧ expectedLostReason h' = expectedLostReason h.
Proof.
  intros Hr Hstate. unfold release_try, ensureRelease.
  assert (state_is m r free = false) as ->.
  { unfold state_is. rewrite Hr. simpl. apply bool_decide_eq_false_2. congruence. }
  simpl. destruct (ensureRelease_try m r env) as [m1 res1] eqn:Ht.
  apply ensureRelease_try_shape in Ht.
  assert (∃ h1, store m1 !! r = Some h1 ∧ device h1 = device h
                ∧ expectedLostReason h1 = expectedLostReason h) as (h1 & Hh1 & Hd1 & He1).
  { subst m1. destruct (state_is m r acquired); [|by eauto].
    rewrite lookup_update_holder, decide_True, Hr by done. simpl.
    eexists. split; [done|]. apply lifecycle_notify_lost. }
  intros Hres.
  exists (notify_lost (lost_after_draining env) (set_state free h1)).
  assert (store m' !! r
          = Some (notify_lost (lost_after_draining env) (set_state free h1))) as Hm'.
  { assert (m' = update_holder (notify_lost (lost_after_draining env)) r
                   (update_holder (set_state free) r m1)) as ->.
    { destruct res1; [destruct (lostInfo <$> _) as [[?|]|]|]; by injection Hres as <- _. }
    by rewrite !lookup_update_holder, !decide_True, Hh1 by done. }
  split; [done|].
  destruct (lifecycle_notify_lost (lost_after_draining env) (set_state free h1)) as [-> ->].
  repeat split; try done.
  unfold notify_lost. simpl. by destruct (lostInfo h1), (lost_after_draining env).
Qed.

(** *** The pool in use *)

Section Machine.
Variable kLimits : list string.
Variable kLimitDefault : string → nat.

Abbreviation getOrCreate := (getOrCreate kLimits kLimitDefault).
Abbreviation reserve_holder := (reserve_holder kLimits kLimitDefault).
Abbreviation reserve := (reserve kLimits kLimitDefault).
Abbreviation step := (step kLimits kLimitDefault).
Abbreviation reachable := (reachable kLimits kLimitDefault).
Abbreviation key_of := (key_of kLimits kLimitDefault).

(** The invariant of a pool in use. *)
Definition wf (w : World) : Prop :=
  heap_wf (heap w) ∧
  match pool w with
  | initialized this => pool_wf this (heap w) ∧ poolSize this = kDevicePoolSize
  | _ => store (heap w) = []
  end.

Lemma reserve_holder_inv this m desc env w' res :
  reserve_holder this m desc env = (w', res) →
  ∃ this' m1 res1,
    getOrCreate this m desc env = (this', m1, res1) ∧
    pool w' = initialized this' ∧
    match res with
    | Ok r => res1 = Ok r ∧ heap w' = update_holder (set_state reserved) r m1
    | Throw _ => heap w' = m1
    end.
Proof.
  unfold DevicePool.reserve_holder.
  destruct (getOrCreate this m desc env) as [[this' m1] res1] eqn:Hg.
  intros Hres. exists this', m1, res1. split; [done|].
  destruct res1 as [holder|ex]; [destruct (negb _)|]; by injection Hres as <- <-.
Qed.

Lemma reserve_holder_wf this m desc env :
  heap_wf m → pool_wf this m → poolSize this = kDevicePoolSize →
  wf (reserve_holder this m desc env).1.
Proof.
  intros Hm Hp Hsize.
  destruct (reserve_holder this m desc env) as [w' res] eqn:Hr.
  apply reserve_holder_inv in Hr as (this' & m1 & res1 & Hg & Hpool & Hheap).
  destruct (getOrCreate_wf _ _ _ _ _ _ _ _ _ Hg Hm Hp) as [Hm1 Hp1].
  apply getOrCreate_unsupported in Hg as [_ Hsize'].
  unfold wf. simpl. rewrite Hpool.
  destruct res as [r|ex].
  - destruct Hheap as [_ ->]. split; [by apply heap_wf_update|].
    split; [by apply pool_wf_update | congruence].
  - rewrite Hheap. split; [done|]. split; [done | congruence].
Qed.

Lemma new_pool_wf m : store m = [] → pool_wf (mkPool kDevicePoolSize ∅ []) m.
Proof.
  intros Hm. split; simpl.
  - intros e He. by apply elem_of_nil in He.
  - apply NoDup_nil_2.
  - lia.
Qed.

Lemma reserve_wf w desc env : wf w → wf (reserve w desc env).1.
Proof.
  intros [Hm Hp]. unfold DevicePool.reserve.
  destruct (pool w) as [| |this] eqn:Hpool.
  - destruct (getOrCreate _ (heap w) None (initial_create env))
      as [[this1 m1] [r|ex]] eqn:Hg.
    + destruct (getOrCreate_wf _ _ _ _ _ _ _ _ _ Hg Hm (new_pool_wf _ Hp)) as [Hm1 Hp1].
      apply getOrCreate_unsupported in Hg as [_ Hsize].
      by apply reserve_holder_wf.
    + unfold wf. simpl.
      destruct (getOrCreate_wf _ _ _ _ _ _ _ _ _ Hg Hm (new_pool_wf _ Hp)) as [Hm1 _].
      split; [done|].
      apply getOrCreate_cases in Hg. remember (Throw ex) as res eqn:Hres.
      destruct Hg as [| |m1 ? ? _ _ Hc|m1 ? _ _ Hc _|]; try discriminate; try done;
        apply create_store in Hc as [-> _]; done.
  - simpl. unfold wf. by rewrite Hpool.
  - destruct Hp as [Hp Hsize]. by apply reserve_holder_wf.
Qed.

Lemma release_wf w r env : wf w → wf (release w r env).1.
Proof.
  intros Hw. unfold release.
  destruct (pool w) as [| |this] eqn:Hpool; [done..|].
  destruct (store (heap w) !! r) as [holder|] eqn:Hr; [|done].
  destruct (assert _ _); [|done].
  destruct Hw as [Hm Hp]. rewrite Hpool in Hp. destruct Hp as [Hp Hsize].
  destruct (release_try (heap w) r env) as [m1 res1] eqn:Ht.
  apply release_try_shape in Ht as (f & Hf%lifecycle_update_keeps_device & ->).
  assert (heap_wf (update_holder f r (heap w))) as Hm1 by by apply heap_wf_update.
  assert (pool_wf this (update_holder f r (heap w))) as Hp1 by by apply pool_wf_update.
  destruct res1 as [[]|ex].
  - split; simpl; [by apply heap_wf_update|]. split; [by apply pool_wf_update|done].
  - unfold release_catch.
    destruct (store (update_holder f r (heap w)) !! r) as [h1|].
    + destruct (negb (isTestFailedButDeviceReusable ex)).
      * split; simpl; [by apply heap_wf_update, heap_wf_log_call|].
        split; [|done]. apply pool_wf_update, pool_wf_log_call.
        apply pool_wf_sublist; [apply deleteByDevice_loop_sublist|done].
      * split; simpl; [by apply heap_wf_update|].
        split; [by apply pool_wf_update|done].
    + split; simpl; [by apply heap_wf_update|].
      split; [by apply pool_wf_update|done].
Qed.

Lemma wf_update f r w :
  keeps_device f → wf w → wf (mkWorld (pool w) (update_holder f r (heap w))).
Proof.
  intros Hf [Hm Hp]. split; simpl; [by apply heap_wf_update|].
  destruct (pool w) as [| |this].
  - rewrite Hp. by destruct r.
  - rewrite Hp. by destruct r.
  - destruct Hp. split; [by apply pool_wf_update|done].
Qed.

Lemma step_wf w op : wf w → wf (step w op).
Proof.
  intros Hw. destruct op as [desc env|r|r reason|r env|r info]; simpl.
  - by apply reserve_wf.
  - unfold acquire. destruct (store (heap w) !! r) as [this|]; [|by destruct w].
    destruct (assert _ _); [|by destruct w]. by apply wf_update.
  - by apply wf_update.
  - by apply release_wf.
  - by apply wf_update.
Qed.

Lemma new_DevicePool_wf : wf new_DevicePool.
Proof. split; [|done]. intros r h Hr. by destruct r. Qed.

Theorem reachable_wf w : reachable w → wf w.
Proof.
  induction 1 as [|w op _ IH]; [apply new_DevicePool_wf | by apply step_wf].
Qed.

Abbreviation run := (run kLimits kLimitDefault).

Lemma run_snoc w ops op : run w (ops ++ [op]) = step (run w ops) op.
Proof. unfold DevicePool.run. by rewrite foldl_app. Qed.

Lemma reachable_run w ops : reachable w → reachable (run w ops).
Proof.
  intros Hw. induction ops as [|op ops IH] using rev_ind; [done|].
  rewrite run_snoc. by constructor.
Qed.

(** **** What [release] does, case by case *)

Lemma release_inv w this r h env :
  pool w = initialized this → store (heap w) !! r = Some h → state h ≠ free →
  ∃ m1 res1 h1,
    release_try (heap w) r env = (m1, res1) ∧
    store m1 !! r = Some h1 ∧ state h1 = free ∧
    device h1 = device h ∧ expectedLostReason h1 = expectedLostReason h ∧
    release w r env =
      match res1 with
      | Ok _ => (mkWorld (initialized this) (update_holder (set_state free) r m1), Ok tt)
      | Throw ex =>
          if isTestFailedButDeviceReusable ex then
            (mkWorld (initialized this) (update_holder (set_state free) r m1),
             if expectedDeviceLost h1 then Ok tt else Throw ex)
          else
            (mkWorld (initialized (deleteByDevice this m1 (device h1)))
               (update_holder (set_state free) r (log_call (CallDestroy (device h1)) m1)),
             if expectedDeviceLost h1 then Ok tt else Throw ex)
      end.
Proof.
  intros Hpool Hr Hstate.
  destruct (release_try (heap w) r env) as [m1 res1] eqn:Ht.
  destruct (release_try_free _ _ _ _ _ _ Hr Hstate Ht) as (h1 & Hh1 & Hs1 & Hd1 & He1).
  exists m1, res1, h1. repeat split; try done.
  unfold release. rewrite Hpool, Hr. unfold assert.
  rewrite bool_decide_eq_false_2 by done. simpl. rewrite Ht.
  destruct res1 as [[]|ex]; [done|].
  unfold release_catch. rewrite Hh1.
  by destruct (isTestFailedButDeviceReusable ex), (expectedDeviceLost h1).
Qed.


(** In a pool in use, a holder exists only once the pool is initialized. *)
Lemma wf_initialized w r h :
  wf w → store (heap w) !! r = Some h →
  ∃ this, pool w = initialized this ∧ pool_wf this (heap w) ∧ heap_wf (heap w).
Proof.
  intros [Hm Hp] Hr. destruct (pool w) as [| |this].
  - by rewrite Hp in Hr.
  - by rewrite Hp in Hr.
  - exists this. by destruct Hp.
Qed.

(** **** A holder outside the pool stays outside *)

(** An existing holder that the pool does not list. *)
Definition discarded (r : Ref) (hs : list (string * Ref)) (m : Heap) : Prop :=
  r < length (store m) ∧ r ∉ hs.*2.

Lemma getOrCreate_discarded this m desc env this' m' res r :
  getOrCreate this m desc env = (this', m', res) →
  discarded r (holders this) m →
  discarded r (holders this') m' ∧ res ≠ Ok r.
Proof.
  intros Hg [Hlt Hnotin]. repeat split.
  - apply getOrCreate_length in Hg. lia.
  - intros [e [-> He]]%list_elem_of_fmap.
    destruct (getOrCreate_holders _ _ _ _ _ _ _ _ _ _ Hg He) as [He'|He']; [|lia].
    apply Hnotin, list_elem_of_fmap. eauto.
  - intros ->. apply getOrCreate_result in Hg as [_ [[key Hkey]|Hnew]]; [|lia].
    apply Hnotin, list_elem_of_fmap. by exists (key, r).
Qed.

Lemma reserve_holder_discarded this m desc env r :
  discarded r (holders this) m →
  discarded r (pooled (reserve_holder this m desc env).1)
              (heap (reserve_holder this m desc env).1)
  ∧ (reserve_holder this m desc env).2 ≠ Ok r.
Proof.
  intros Hd. destruct (reserve_holder this m desc env) as [w' res] eqn:Hr.
  apply reserve_holder_inv in Hr as (this' & m1 & res1 & Hg & Hpool & Hheap).
  destruct (getOrCreate_discarded _ _ _ _ _ _ _ _ Hg Hd) as [[Hlt Hnotin] Hres].
  simpl. unfold pooled. rewrite Hpool. destruct res as [r'|ex].
  - destruct Hheap as [-> ->]. unfold discarded.
    rewrite length_store_update_holder. done.
  - by rewrite Hheap.
Qed.

Lemma reserve_discarded w desc env r :
  discarded r (pooled w) (heap w) →
  discarded r (pooled (reserve w desc env).1) (heap (reserve w desc env).1)
  ∧ (reserve w desc env).2 ≠ Ok r.
Proof.
  unfold pooled at 1, DevicePool.reserve. intros Hd.
  destruct (pool w) as [| |this] eqn:Hpool.
  - destruct (getOrCreate _ (heap w) None (initial_create env))
      as [[this1 m1] [r1|ex]] eqn:Hg;
      destruct (getOrCreate_discarded _ _ _ _ _ _ _ _ Hg Hd) as [Hd1 _].
    + by apply reserve_holder_discarded.
    + simpl. split; [|done]. split; [apply Hd1 | apply not_elem_of_nil].
  - simpl. unfold pooled. rewrite Hpool. done.
  - by apply reserve_holder_discarded.
Qed.

Lemma release_pooled w r env :
  (pooled (release w r env).1) `sublist_of` pooled w ∧
  length (store (heap (release w r env).1)) = length (store (heap w)).
Proof.
  unfold release, pooled.
  destruct (pool w) as [| |this] eqn:Hpool; simpl; rewrite ?Hpool; [done..|].
  destruct (store (heap w) !! r) as [holder|] eqn:Hr; simpl; rewrite ?Hpool; [|done].
  destruct (assert _ _); simpl; rewrite ?Hpool; [|done].
  destruct (release_try (heap w) r env) as [m1 res1] eqn:Ht.
  apply release_try_shape in Ht as (f & _ & ->).
  destruct res1 as [[]|ex]; simpl.
  - by rewrite !length_alter.
  - unfold release_catch.
    destruct (store (update_holder f r (heap w)) !! r) as [h1|]; simpl.
    + destruct (negb (isTestFailedButDeviceReusable ex)); simpl.
      * split; [apply deleteByDevice_loop_sublist|]. by rewrite !length_alter.
      * by rewrite !length_alter.
    + by rewrite !length_alter.
Qed.

Lemma step_discarded w op r :
  discarded r (pooled w) (heap w) →
  discarded r (pooled (step w op)) (heap (step w op)).
Proof.
  intros Hd. destruct op as [desc env|r'|r' reason|r' env|r' info]; simpl.
  - by apply reserve_discarded.
  - unfold acquire. destruct (store (heap w) !! r') as [this|]; [|done].
    destruct (assert _ _); [|done]. destruct Hd as [Hlt Hnotin].
    split; [|done]. simpl. by rewrite length_alter.
  - destruct Hd as [Hlt Hnotin]. split; [|done]. simpl. by rewrite length_alter.
  - destruct (release_pooled w r' env) as [Hsub Hlen].
    destruct Hd as [Hlt Hnotin]. split; [lia|].
    intros Hin. apply Hnotin. eapply elem_of_sublist; [done|]. by apply fmap_sublist.
  - destruct Hd as [Hlt Hnotin]. split; [|done]. simpl. by rewrite length_alter.
Qed.

(** Once a holder is out of the pool, no later [reserve] returns it. *)
Lemma discarded_never_reserved w r ops desc env :
  discarded r (pooled w) (heap w) →
  (reserve (run w ops) desc env).2 ≠ Ok r.
Proof.
  intros Hd. apply reserve_discarded.
  induction ops as [|op ops IH] using rev_ind; [done|].
  rewrite run_snoc. by apply step_discarded.
Qed.

(** **** The properties of the specification *)

(** C2: whenever [DevicePool.release] is called on a holder that is not
    free, the holder is free when [release] completes, whether it returns
    or throws. *)
Theorem release_always_frees w r env h w' res :
  reachable w → store (heap w) !! r = Some h → state h ≠ free →
  release w r env = (w', res) →
  ∃ h', store (heap w') !! r = Some h' ∧ state h' = free.
Proof.
  intros Hw%reachable_wf Hr Hstate Hrel.
  destruct (wf_initialized w r h Hw Hr) as (this & Hpool & _ & _).
  destruct (release_inv w this r h env Hpool Hr Hstate)
    as (m1 & res1 & h1 & _ & Hh1 & Hs1 & _ & _ & Hrel').
  rewrite Hrel in Hrel'. exists (set_state free h1). split; [|done].
  destruct res1 as [[]|ex]; [|destruct (isTestFailedButDeviceReusable ex)];
    injection Hrel' as -> _; simpl;
    by rewrite list_lookup_alter_eq, Hh1.
Qed.


(** C10: when the release check fails with anything but
    [TestFailedButDeviceReusable], the holder is deleted from the pool and
    its device destroyed whether or not the loss was the expected one; if
    it was, [release] returns normally, and in either case no later
    [reserve] returns that holder. *)
Theorem release_discards_holder w r env h m1 ex w' res :
  reachable w → store (heap w) !! r = Some h → state h ≠ free →
  release_try (heap w) r env = (m1, Throw ex) →
  isTestFailedButDeviceReusable ex = false →
  release w r env = (w', res) →
  (r ∉ (pooled w').*2) ∧
  CallDestroy (device h) ∈ calls (heap w') ∧
  (∃ h1, store m1 !! r = Some h1 ∧
         res = if expectedDeviceLost h1 then Ok tt else Throw ex) ∧
  ∀ ops desc env', (reserve (run w' ops) desc env').2 ≠ Ok r.
Proof.
  intros Hw%reachable_wf Hr Hstate Htry Hex Hrel.
  destruct (wf_initialized w r h Hw Hr) as (this & Hpool & Hp & Hm).
  destruct (release_inv w this r h env Hpool Hr Hstate)
    as (m1' & res1 & h1 & Htry' & Hh1 & Hs1 & Hd1 & He1 & Hrel').
  rewrite Htry in Htry'. injection Htry' as <- <-.
  rewrite Hrel, Hex in Hrel'. injection Hrel' as -> ->.
  apply release_try_shape in Htry as (f & Hf%lifecycle_update_keeps_device & ->).
  assert (r ∉ (deleteByDevice_loop (update_holder f r (heap w)) (device h1)
                 (holders this)).*2) as Hgone.
  { apply deleteByDevice_loop_removes; [by apply heap_wf_update|done|apply Hp]. }
  repeat split.
  - done.
  - simpl. rewrite Hd1. apply elem_of_app. right. by apply list_elem_of_singleton.
  - by exists h1.
  - intros ops desc env'. apply discarded_never_reserved. split; [|done].
    simpl. rewrite !length_alter. by eapply lookup_lt_Some.
Qed.


(** **** The negative cache *)

Lemma getOrCreate_known_unsupported this m desc env :
  key_of desc ∈ unsupported this →
  ∃ msg, getOrCreate this m desc env = (this, m, Throw (SkipTestCase msg)).
Proof.
  unfold DevicePoolFacts.key_of, DevicePool.getOrCreate.
  destruct (canonicalizeDescriptor kLimits kLimitDefault desc) as [descriptor key].
  simpl. intros Hkey. rewrite decide_True by done. eauto.
Qed.

Lemma release_unsupported w this r env :
  pool w = initialized this →
  ∃ this', pool (release w r env).1 = initialized this' ∧
           unsupported this' = unsupported this.
Proof.
  intros Hpool. unfold release. rewrite Hpool.
  destruct (store (heap w) !! r) as [holder|]; [|by eauto].
  destruct (assert _ _); [|by eauto].
  destruct (release_try (heap w) r env) as [m1 [[]|ex]]; [by eauto|].
  unfold release_catch. destruct (store m1 !! r) as [h1|]; [|by eauto].
  destruct (negb _); by eauto.
Qed.

Lemma step_unsupported w this op key :
  pool w = initialized this → key ∈ unsupported this →
  ∃ this', pool (step w op) = initialized this' ∧ key ∈ unsupported this'.
Proof.
  intros Hpool Hkey. destruct op as [desc env|r|r reason|r env|r info]; simpl;
    try by eauto.
  - unfold DevicePool.reserve. rewrite Hpool.
    destruct (reserve_holder this (heap w) desc (request_create env)) as [w' res] eqn:Hr.
    apply reserve_holder_inv in Hr as (this' & m1 & res1 & Hg & Hpool' & _).
    apply getOrCreate_unsupported in Hg as [Hsub _]. exists this'. split; [done|].
    by apply Hsub.
  - destruct (release_unsupported w this r env Hpool) as (this' & Hpool' & Hun).
    exists this'. by rewrite Hun.
Qed.

Lemma run_unsupported w this ops key :
  pool w = initialized this → key ∈ unsupported this →
  ∃ this', pool (run w ops) = initialized this' ∧ key ∈ unsupported this'.
Proof.
  intros Hpool Hkey. induction ops as [|op ops IH] using rev_ind; [by eauto|].
  destruct IH as (this1 & Hpool1 & Hkey1). rewrite run_snoc.
  by eapply step_unsupported.
Qed.

(** C6: when the construction of a device is attempted for a descriptor
    and fails with [FeaturesNotSupported], [getOrCreate] puts the key of
    the descriptor into [unsupported] and throws [SkipTestCase]; from
    then on, whatever else happens to the pool, every [getOrCreate] whose
    descriptor has that key throws [SkipTestCase] and leaves the pool,
    the holders and the record of calls as they are, so that no
    construction is attempted. *)
Theorem unsupported_descriptor_is_skipped this m desc env m1 msg :
  key_of desc ∉ unsupported this →
  find_free m 0 (holders this) = None →
  create m (canonicalizeDescriptor kLimits kLimitDefault desc).1 env
    = (m1, Throw (FeaturesNotSupported msg)) →
  ∃ this1 msg1,
    getOrCreate this m desc env = (this1, m1, Throw (SkipTestCase msg1)) ∧
    key_of desc ∈ unsupported this1 ∧
    ∀ ops desc' env', key_of desc' = key_of desc →
      let w := run (mkWorld (initialized this1) m1) ops in
      ∃ this2 msg2,
        pool w = initialized this2 ∧
        getOrCreate this2 (heap w) desc' env'
          = (this2, heap w, Throw (SkipTestCase msg2)).
Proof.
  intros Hkey Hfree Hcreate.
  destruct (getOrCreate this m desc env) as [[this1 m1'] res] eqn:Hg.
  apply getOrCreate_cases in Hg as Hcase.
  destruct Hcase as [|pre key holder post _ Hhs _ Hf|m' ? msg' _ _ Hc|m' ? _ _ Hc Hex|m' ? _ _ Hc].
  - done.
  - apply find_free_None in Hfree. rewrite Hhs in Hfree.
    apply Forall_app in Hfree as [_ [Hbusy _]%Forall_cons].
    unfold busy in Hbusy. simpl in Hbusy. congruence.
  - rewrite Hcreate in Hc. injection Hc as <- _.
    eexists _, msg'. split; [done|]. split; [set_solver|].
    intros ops desc' env' Hsame w.
    destruct (run_unsupported (mkWorld (initialized
                (mkPool (poolSize this) ({[key_of desc]} ∪ unsupported this)
                   (holders this))) m1) _ ops (key_of desc) eq_refl)
      as (this2 & Hpool2 & Hkey2); [set_solver|].
    rewrite <- Hsame in Hkey2.
    destruct (getOrCreate_known_unsupported this2 (heap w) desc' env' Hkey2) as [msg2 Hg2].
    by exists this2, msg2.
  - rewrite Hcreate in Hc. by injection Hc as <- <-.
  - rewrite Hcreate in Hc. by injection Hc.
Qed.

End Machine.

(** *** Worked examples *)

(** Two limits with their defaults stand in for the table of
    capability_info.ts. *)
Definition exampleLimits : list string := ["maxBindGroups"; "maxVertexBuffers"].
Definition exampleLimitDefault (limit : string) : nat :=
  if decide (limit = "maxBindGroups") then 4 else 8.

Abbreviation reserve' := (reserve exampleLimits exampleLimitDefault).
Abbreviation run' := (run exampleLimits exampleLimitDefault).
Abbreviation key_of' := (key_of exampleLimits exampleLimitDefault).

(** An implementation that supports ["timestamp-query"] and grants every
    device asked for. *)
Definition grant : CreateEnv :=
  {| requestAdapter :=
       Some {| features := {[ "timestamp-query" ]}; requestDevice := Resolved true |} |}.
Definition grants : ReserveEnv := {| initial_create := grant; request_create := grant |}.

(** An implementation without optional features. *)
Definition plain : CreateEnv :=
  {| requestAdapter := Some {| features := ∅; requestDevice := Resolved true |} |}.

Definition timestamp : option UncanonicalizedDeviceDescriptor :=
  Some {| requiredFeatures := Some ["timestamp-query"]; requiredLimits := None |}.

Definition no_scope_left : Awaited (option GPUError) :=
  Rejected "OperationError" "no error scope on the stack".

(** A release during which nothing goes wrong. *)
Definition quiet : ReleaseEnv :=
  {| lost_while_draining := None;
     popValidation := Resolved None;
     popOutOfMemory := Resolved None;
     onSubmittedWorkDone := Some (Resolved tt);
     popExtra := no_scope_left;
     timed_out := false;
     lost_after_draining := None |}.

(** The test caused a validation error, and the device is lost once the
    error scopes have been popped. *)
Definition lost_after_validation_error : ReleaseEnv :=
  {| lost_while_draining := None;
     popValidation := Resolved (Some (GPUValidationError "invalid bind group"));
     popOutOfMemory := Resolved None;
     onSubmittedWorkDone := Some (Resolved tt);
     popExtra := no_scope_left;
     timed_out := false;
     lost_after_draining :=
       Some {| reason := reason_unknown; message := "GPU process crashed" |} |}.

(** The device is lost while the scopes are popped, and the pops reject. *)
Definition lost_while_popping (why : GPUDeviceLostReason) : ReleaseEnv :=
  {| lost_while_draining := Some {| reason := why; message := "device lost" |};
     popValidation := Rejected "OperationError" "device is lost";
     popOutOfMemory := Rejected "OperationError" "device is lost";
     onSubmittedWorkDone := Some (Rejected "OperationError" "device is lost");
     popExtra := no_scope_left;
     timed_out := false;
     lost_after_draining := None |}.

(** Two tests ran side by side, one on the default device and one on a
    device with ["timestamp-query"], and both have released their holder. *)
Definition two_free_holders : World :=
  run' new_DevicePool
    [ OpReserve None grants; OpReserve timestamp grants;
      OpRelease 0 quiet; OpRelease 1 quiet ].

(** C1 fails on the code: the pool holds a free holder whose key is the
    key of the request (holder 1), yet [reserve] returns the free holder
    at the head of the list (holder 0, made for the default descriptor)
    and moves that one to the most recently used position. *)
Lemma reserve_returns_holder_of_another_key :
  pooled two_free_holders = [(EmptyString, 0); (key_of' timestamp, 1)] ∧
  state <$> store (heap two_free_holders) !! 0 = Some free ∧
  state <$> store (heap two_free_holders) !! 1 = Some free ∧
  key_of' timestamp ≠ EmptyString ∧
  (reserve' two_free_holders timestamp grants).2 = Ok 0 ∧
  pooled (reserve' two_free_holders timestamp grants).1
    = [(key_of' timestamp, 1); (EmptyString, 0)].
Proof. vm_compute. repeat split; done. Qed.

(** A test holds the default device and has acquired it. *)
Definition one_acquired : World :=
  run' new_DevicePool [ OpReserve None grants; OpAcquire 0 ].

Lemma release_always_frees_witness :
  ∃ h', store (heap (release one_acquired 0 lost_after_validation_error).1) !! 0 = Some h'
        ∧ state h' = free.
Proof.
  eapply (release_always_frees exampleLimits exampleLimitDefault one_acquired 0
            lost_after_validation_error (mkDeviceHolder 0 acquired None None)).
  - apply reachable_run, reachable_new.
  - reflexivity.
  - simpl. discriminate.
  - apply surjective_pairing.
Defined.




(** A test is about to destroy its device and has said so; the device
    reports the loss. *)
Definition destroyed_as_expected : World :=
  run' new_DevicePool
    [ OpReserve None grants; OpAcquire 0; OpExpectDeviceLost 0 reason_destroyed;
      OpDeviceLost 0 {| reason := reason_destroyed; message := "destroyed" |} ].

Lemma release_discards_holder_witness :
  let w' := (release destroyed_as_expected 0 (lost_while_popping reason_destroyed)).1 in
  let res := (release destroyed_as_expected 0 (lost_while_popping reason_destroyed)).2 in
  (0 ∉ (pooled w').*2) ∧
  CallDestroy 0 ∈ calls (heap w') ∧
  (∃ h1, store (release_try (heap destroyed_as_expected) 0
                  (lost_while_popping reason_destroyed)).1 !! 0 = Some h1 ∧
         res = if expectedDeviceLost h1 then Ok tt
               else Throw (Foreign "OperationError" "device is lost")) ∧
  ∀ ops desc env', (reserve' (run' w' ops) desc env').2 ≠ Ok 0.
Proof.
  apply (release_discards_holder exampleLimits exampleLimitDefault
           destroyed_as_expected 0 (lost_while_popping reason_destroyed)
           (mkDeviceHolder 0 acquired
              (Some {| reason := reason_destroyed; message := "destroyed" |})
              (Some reason_destroyed))).
  - apply reachable_run, reachable_new.
  - reflexivity.
  - simpl. discriminate.
  - reflexivity.
  - reflexivity.
  - apply surjective_pairing.
Defined.

(** In that example the error is swallowed: [release] returns normally. *)
Example expected_loss_is_swallowed :
  (release destroyed_as_expected 0 (lost_while_popping reason_destroyed)).2 = Ok tt ∧
  pooled (release destroyed_as_expected 0 (lost_while_popping reason_destroyed)).1 = [].
Proof. by vm_compute. Qed.

(** A pool that has never seen the descriptor, on an implementation
    without ["timestamp-query"]. *)
Lemma unsupported_descriptor_is_skipped_witness :
  let this := mkPool kDevicePoolSize ∅ [] in
  let m := mkHeap [] [] in
  ∃ this1 msg1,
    getOrCreate exampleLimits exampleLimitDefault this m timestamp plain
      = (this1, log_call (CallCreate (canonicalizeDescriptor exampleLimits
                                        exampleLimitDefault timestamp).1) m,
         Throw (SkipTestCase msg1)) ∧
    key_of' timestamp ∈ unsupported this1 ∧
    ∀ ops desc' env', key_of' desc' = key_of' timestamp →
      let w := run' (mkWorld (initialized this1)
                       (log_call (CallCreate (canonicalizeDescriptor exampleLimits
                                                exampleLimitDefault timestamp).1) m)) ops in
      ∃ this2 msg2,
        pool w = initialized this2 ∧
        getOrCreate exampleLimits exampleLimitDefault this2 (heap w) desc' env'
          = (this2, heap w, Throw (SkipTestCase msg2)).
Proof.
  apply (unsupported_descriptor_is_skipped exampleLimits exampleLimitDefault
           (mkPool kDevicePoolSize ∅ []) (mkHeap [] []) timestamp plain _
           "One or more features are not supported").
  - apply not_elem_of_empty.
  - reflexivity.
  - reflexivity.
Defined.

(** *** Canonical descriptors *)

Lemma string_compare_trans a b c :
  String.compare a b ≠ Gt → String.compare b c ≠ Gt → String.compare a c ≠ Gt.
Proof.
  revert b c. induction a as [|x a IH]; intros [|y b] [|z c]; simpl; try done.
  unfold Ascii.compare.
  destruct (N.compare_spec (Ascii.N_of_ascii x) (Ascii.N_of_ascii y)) as [Hxy|Hxy|Hxy];
    [| |done].
  - rewrite Hxy.
    destruct (N.compare_spec (Ascii.N_of_ascii y) (Ascii.N_of_ascii z)); [|done..].
    apply IH.
  - destruct (N.compare_spec (Ascii.N_of_ascii y) (Ascii.N_of_ascii z)) as [Hyz|Hyz|Hyz];
      [| |done]; intros _ _.
    + rewrite <- Hyz. by apply N.compare_lt_iff in Hxy as ->.
    + assert (Ascii.N_of_ascii x < Ascii.N_of_ascii z)%N as Hxz by lia.
      by apply N.compare_lt_iff in Hxz as ->.
Qed.

Global Instance string_le_trans : Transitive string_le.
Proof.
  intros a b c. unfold string_le, String.leb. intros Hab Hbc.
  pose proof (string_compare_trans a b c) as H.
  destruct (String.compare a b), (String.compare b c), (String.compare a c);
    try done; by destruct H.
Qed.

Global Instance string_le_total : Total string_le.
Proof. intros a b. apply String.leb_total. Qed.

Global Instance string_le_antisym : AntiSymm (=) string_le.
Proof. intros a b. apply String.leb_antisym. Qed.

(** The features and the limits a request names; a missing field names none. *)
Definition features_of (desc : UncanonicalizedDeviceDescriptor) : list GPUFeatureName :=
  default [] (requiredFeatures desc).

Definition limits_of (desc : UncanonicalizedDeviceDescriptor) : gmap string nat :=
  default ∅ (requiredLimits desc).

Section Canonical.
Variable kLimits : list string.
Variable kLimitDefault : string → nat.

Abbreviation canonicalizeLimits := (canonicalizeLimits kLimitDefault).
Abbreviation canonicalizeDescriptor := (canonicalizeDescriptor kLimits kLimitDefault).
Abbreviation key_of := (key_of kLimits kLimitDefault).

(** What a request asks of a limit: a value other than the default, or
    nothing. *)
Definition effective (requested : gmap string nat) (limit : string) : option nat :=
  match requested !! limit with
  | Some v => if decide (v ≠ kLimitDefault limit) then Some v else None
  | None => None
  end.

Lemma canonicalizeLimits_effective limits requested :
  canonicalizeLimits limits requested
  = omap (λ limit, (limit,.) <$> effective requested limit) limits.
Proof.
  induction limits as [|limit rest IH]; [done|]. csimpl. unfold effective at 1.
  destruct (requested !! limit) as [v|]; [|done].
  case_decide; simpl; by rewrite IH.
Qed.

Lemma canonicalizeLimits_ext limits r1 r2 :
  (∀ limit, limit ∈ limits → effective r1 limit = effective r2 limit) →
  canonicalizeLimits limits r1 = canonicalizeLimits limits r2.
Proof.
  intros H. rewrite !canonicalizeLimits_effective.
  induction limits as [|limit rest IH]; [done|]. csimpl.
  rewrite (H limit) by by left. rewrite IH; [done|]. intros l Hl. apply H. by right.
Qed.

Lemma canonicalizeLimits_empty limits : canonicalizeLimits limits ∅ = [].
Proof. induction limits as [|limit rest IH]; [done|]. simpl. by rewrite lookup_empty. Qed.

Definition canonical_features (desc : UncanonicalizedDeviceDescriptor) : list GPUFeatureName :=
  merge_sort string_le (remove_dups (features_of desc)).

Lemma canonicalizeDescriptor_Some desc :
  canonicalizeDescriptor (Some desc)
  = (Some {| canonicalFeatures := canonical_features desc;
             canonicalLimits := canonicalizeLimits kLimits (limits_of desc) |},
     JSON_stringify (Some {| canonicalFeatures := canonical_features desc;
                             canonicalLimits := canonicalizeLimits kLimits (limits_of desc) |})).
Proof.
  unfold DevicePool.canonicalizeDescriptor, canonical_features, features_of, limits_of.
  destruct (requiredFeatures desc), (requiredLimits desc); simpl;
    by rewrite ?canonicalizeLimits_empty.
Qed.

(** X12: the key of the default request ([undefined]) is the empty string,
    and no other request has that key. *)
Theorem key_of_undefined desc : key_of desc = EmptyString ↔ desc = None.
Proof.
  unfold DevicePoolFacts.key_of. destruct desc as [desc|]; [|done].
  rewrite canonicalizeDescriptor_Some. by split.
Qed.

(** X13: the canonical form of a request lists each requested feature once,
    in sorted order, and lists a limit exactly when it is a known limit
    requested with a value other than its default. *)
Theorem canonical_form desc descriptor key :
  canonicalizeDescriptor (Some desc) = (descriptor, key) →
  ∃ d, descriptor = Some d ∧
    Sorted string_le (canonicalFeatures d) ∧ NoDup (canonicalFeatures d) ∧
    (∀ f, f ∈ canonicalFeatures d ↔ f ∈ features_of desc) ∧
    (∀ limit v, (limit, v) ∈ canonicalLimits d ↔
       limit ∈ kLimits ∧ limits_of desc !! limit = Some v ∧ v ≠ kLimitDefault limit).
Proof.
  rewrite canonicalizeDescriptor_Some. intros [= <- _]. eexists. split; [done|]. simpl.
  unfold canonical_features.
  split; [apply Sorted_merge_sort; apply _|].
  split; [rewrite merge_sort_Permutation; apply NoDup_remove_dups|].
  split; [intros f; rewrite merge_sort_Permutation; apply elem_of_remove_dups|].
  intros limit v. rewrite canonicalizeLimits_effective, list_elem_of_omap. split.
  - intros (l & Hl & Heff).
    unfold effective in Heff. destruct (limits_of desc !! l) as [v'|] eqn:Hv; [|done].
    case_decide; [|done]. by injection Heff as <- <-.
  - intros (Hl & Hv & Hne). exists limit. split; [done|].
    unfold effective. rewrite Hv. by rewrite decide_True.
Qed.

(** X14: two requests that name the same features, in any order and with
    any repetitions, and that ask the same of every known limit, a value
    equal to the default counting as no request, have the same canonical
    descriptor and the same key. *)
Theorem equivalent_requests_share_key d1 d2 :
  (∀ f, f ∈ features_of d1 ↔ f ∈ features_of d2) →
  (∀ limit, limit ∈ kLimits →
     effective (limits_of d1) limit = effective (limits_of d2) limit) →
  canonicalizeDescriptor (Some d1) = canonicalizeDescriptor (Some d2).
Proof.
  intros Hfeatures Hlimits. rewrite !canonicalizeDescriptor_Some.
  assert (canonical_features d1 = canonical_features d2) as ->.
  { unfold canonical_features. apply (Sorted_unique string_le).
    - apply Sorted_merge_sort. apply _.
    - apply Sorted_merge_sort. apply _.
    - rewrite !merge_sort_Permutation.
      apply NoDup_Permutation; [apply NoDup_remove_dups..|].
      intros f. by rewrite !elem_of_remove_dups. }
  by rewrite (canonicalizeLimits_ext kLimits (limits_of d1) (limits_of d2)).
Qed.

End Canonical.

(** Two ways of asking for the same device. *)
Definition request_a : UncanonicalizedDeviceDescriptor :=
  {| requiredFeatures := Some ["timestamp-query"; "depth-clip-control"; "timestamp-query"];
     requiredLimits := Some {[ "maxBindGroups" := 4; "maxVertexBuffers" := 16 ]} |}.
Definition request_b : UncanonicalizedDeviceDescriptor :=
  {| requiredFeatures := Some ["depth-clip-control"; "timestamp-query"];
     requiredLimits := Some {[ "maxVertexBuffers" := 16; "maxFoo" := 1 ]} |}.

Lemma canonical_form_witness :
  ∃ d, (canonicalizeDescriptor exampleLimits exampleLimitDefault (Some request_a)).1 = Some d ∧
    Sorted string_le (canonicalFeatures d) ∧ NoDup (canonicalFeatures d) ∧
    (∀ f, f ∈ canonicalFeatures d ↔ f ∈ features_of request_a) ∧
    (∀ limit v, (limit, v) ∈ canonicalLimits d ↔
       limit ∈ exampleLimits ∧ limits_of request_a !! limit = Some v
       ∧ v ≠ exampleLimitDefault limit).
Proof.
  eapply (canonical_form exampleLimits exampleLimitDefault request_a).
  apply surjective_pairing.
Defined.

Lemma equivalent_requests_share_key_witness :
  canonicalizeDescriptor exampleLimits exampleLimitDefault (Some request_a)
  = canonicalizeDescriptor exampleLimits exampleLimitDefault (Some request_b).
Proof.
  apply (equivalent_requests_share_key exampleLimits exampleLimitDefault request_a request_b).
  - intros f. unfold features_of, request_a, request_b. simpl.
    rewrite !elem_of_cons. intuition.
  - intros limit [->|[->|[]%elem_of_nil]%elem_of_cons]%elem_of_cons; reflexivity.
Defined.

(** *** Constructing, reserving and acquiring *)

Lemma supportsFeature_loop_true adapter fs :
  supportsFeature_loop adapter fs = true ↔ Forall (λ f, f ∈ features adapter) fs.
Proof.
  induction fs as [|f fs IH]; simpl; [by split|].
  case_bool_decide as Hf; simpl.
  - rewrite IH. split; [by constructor|]. by intros [_ ?]%Forall_cons.
  - split; [done|]. by intros [? _]%Forall_cons.
Qed.

(** X15: every [DeviceHolder.create] makes one construction attempt.  It
    fails with [FeaturesNotSupported] exactly when there is an adapter that
    lacks one of the requested features; when it fails, for whatever reason,
    the holders are as before; when it succeeds the adapter has every
    requested feature and exactly one holder is added, which is free, not
    lost and without an expected loss. *)
Theorem create_outcome m descriptor env m' res :
  create m descriptor env = (m', res) →
  calls m' = calls m ++ [CallCreate descriptor] ∧
  ((∃ msg, res = Throw (FeaturesNotSupported msg)) ↔
     ∃ adapter d f, requestAdapter env = Some adapter ∧ descriptor = Some d ∧
       f ∈ canonicalFeatures d ∧ f ∉ features adapter) ∧
  match res with
  | Ok r =>
      r = length (store m) ∧
      store m' = store m ++ [mkDeviceHolder (length (store m)) free None None] ∧
      ∃ adapter, requestAdapter env = Some adapter ∧ supportsFeature adapter descriptor = true
  | Throw _ => store m' = store m
  end.
Proof.
  unfold create. intros Hc. split.
  { destruct (requestAdapter env) as [adapter|]; [|by injection Hc as <- _].
    destruct (negb _); [by injection Hc as <- _|].
    destruct (requestDevice adapter) as [[]|]; by injection Hc as <- _. }
  assert (∀ adapter, supportsFeature adapter descriptor = false ↔
            ∃ d f, descriptor = Some d ∧ f ∈ canonicalFeatures d ∧ f ∉ features adapter)
    as Hunsupported.
  { intros adapter. destruct descriptor as [d|]; simpl.
    - rewrite <- not_true_iff_false, supportsFeature_loop_true. split.
      + intros (f & Hf & Hnot)%not_Forall_Exists%Exists_exists; [|intros f; apply _].
        by exists d, f.
      + intros (d' & f & [= <-] & Hf & Hnot) Hall.
        eapply Forall_forall in Hall; [|done]. done.
    - split; [done|]. by intros (d & f & ? & _). }
  destruct (requestAdapter env) as [adapter|] eqn:Hadapter.
  - destruct (supportsFeature adapter descriptor) eqn:Hsupports; simpl in Hc.
    + assert (¬ ∃ adapter' d f, Some adapter = Some adapter' ∧ descriptor = Some d ∧
                f ∈ canonicalFeatures d ∧ f ∉ features adapter') as Hno.
      { intros (adapter' & d & f & [= <-] & Hrest).
        assert (supportsFeature adapter descriptor = false); [|congruence].
        apply Hunsupported. by exists d, f. }
      destruct (requestDevice adapter) as [[]|]; injection Hc as <- <-;
        (split; [split; [by intros [? ?]|by intros ?]|]); try done.
      repeat split. by exists adapter.
    + injection Hc as <- <-. split; [|done]. split; [|by eauto].
      intros _. apply Hunsupported in Hsupports as (d & f & Hrest). by exists adapter, d, f.
  - injection Hc as <- <-. split; [|done]. split; [by intros [? ?]|].
    by intros (? & ? & ? & ? & _).
Qed.

Lemma create_outcome_witness :
  calls (create (mkHeap [] []) (Some {| canonicalFeatures := ["timestamp-query"];
                                        canonicalLimits := [] |}) plain).1
  = [] ++ [CallCreate (Some {| canonicalFeatures := ["timestamp-query"];
                               canonicalLimits := [] |})].
Proof.
  eapply (create_outcome (mkHeap [] [])
            (Some {| canonicalFeatures := ["timestamp-query"]; canonicalLimits := [] |})
            plain).
  apply surjective_pairing.
Defined.

Section Reserving.
Variable kLimits : list string.
Variable kLimitDefault : string → nat.

Abbreviation getOrCreate := (getOrCreate kLimits kLimitDefault).
Abbreviation reserve_holder := (reserve_holder kLimits kLimitDefault).
Abbreviation reserve := (reserve kLimits kLimitDefault).
Abbreviation step := (step kLimits kLimitDefault).
Abbreviation run := (run kLimits kLimitDefault).
Abbreviation reachable := (reachable kLimits kLimitDefault).

Lemma getOrCreate_keeps_holders this m desc env this' m' res r h :
  getOrCreate this m desc env = (this', m', res) →
  store m !! r = Some h → store m' !! r = Some h.
Proof.
  intros Hg%getOrCreate_cases Hr.
  destruct Hg as [| |m' ? ? _ _ Hc|m' ? _ _ Hc _|m' ? _ _ Hc]; try done;
    apply create_store in Hc as [Hst _].
  - by rewrite Hst.
  - by rewrite Hst.
  - destruct Hst as [_ ->]. by apply lookup_app_l_Some.
Qed.

Lemma getOrCreate_was_free this m desc env this' m' r h :
  getOrCreate this m desc env = (this', m', Ok r) →
  store m !! r = Some h → state h = free.
Proof.
  intros Hg%getOrCreate_cases. remember (Ok r) as res eqn:Hres.
  destruct Hg as [|pre key holder post Hk Hhs Hpre Hfree| | |? ? Hk Hbusy Hc];
    try discriminate; injection Hres as ->.
  - intros Hr. unfold state_is in Hfree. rewrite Hr in Hfree. simpl in Hfree.
    apply bool_decide_eq_true in Hfree. by injection Hfree.
  - apply create_store in Hc as [[-> _] _]. intros Hr%lookup_lt_Some. lia.
Qed.

Lemma reserve_holder_was_free this m desc env w' r :
  reserve_holder this m desc env = (w', Ok r) →
  (∀ h, store m !! r = Some h → state h = free) ∧
  state <$> store (heap w') !! r = Some reserved.
Proof.
  intros (this' & m1 & res1 & Hg & _ & -> & ->)%reserve_holder_inv. split.
  - intros h. by eapply getOrCreate_was_free.
  - apply getOrCreate_result in Hg as [Hfree _].
    unfold state_is in Hfree. apply bool_decide_eq_true in Hfree.
    rewrite lookup_update_holder, decide_True by done.
    destruct (store m1 !! r); [done|]. done.
Qed.

(** X16: the holder [reserve] returns was free, or did not exist, when
    [reserve] was called, and is reserved when it returns: a holder that is
    reserved or acquired is never handed to a second caller. *)
Theorem reserve_hands_out_free_holder w desc env w' r :
  reserve w desc env = (w', Ok r) →
  (∀ h, store (heap w) !! r = Some h → state h = free) ∧
  state <$> store (heap w') !! r = Some reserved.
Proof.
  unfold DevicePool.reserve. destruct (pool w) as [| |this]; [| done |].
  - destruct (getOrCreate _ (heap w) None (initial_create env))
      as [[this1 m1] [r1|ex]] eqn:Hg; [|done].
    intros [Hwas Hnow]%reserve_holder_was_free. split; [|done].
    intros h Hh. apply Hwas. by eapply getOrCreate_keeps_holders.
  - apply reserve_holder_was_free.
Qed.

Lemma reserve_holder_keeps_others this m desc env r' h :
  store m !! r' = Some h → (reserve_holder this m desc env).2 ≠ Ok r' →
  store (heap (reserve_holder this m desc env).1) !! r' = Some h.
Proof.
  intros Hr' Hres. destruct (reserve_holder this m desc env) as [w' res] eqn:Hr.
  apply reserve_holder_inv in Hr as (this' & m1 & res1 & Hg & _ & Hheap).
  pose proof (getOrCreate_keeps_holders _ _ _ _ _ _ _ _ _ Hg Hr') as Hr1.
  simpl in *. destruct res as [r|ex].
  - destruct Hheap as [_ ->]. rewrite lookup_update_holder, decide_False; [done|].
    congruence.
  - by rewrite Hheap.
Qed.

(** X17: [reserve] changes no holder but the one it returns: every other
    existing holder keeps its device, its state, its loss notification and
    its expected loss. *)
Theorem reserve_keeps_other_holders w desc env r' h :
  store (heap w) !! r' = Some h → (reserve w desc env).2 ≠ Ok r' →
  store (heap (reserve w desc env).1) !! r' = Some h.
Proof.
  unfold DevicePool.reserve. intros Hr'. destruct (pool w) as [| |this]; [| done |].
  - destruct (getOrCreate _ (heap w) None (initial_create env))
      as [[this1 m1] [r1|ex]] eqn:Hg.
    + apply reserve_holder_keeps_others. by eapply getOrCreate_keeps_holders.
    + intros _. simpl. by eapply getOrCreate_keeps_holders.
  - by apply reserve_holder_keeps_others.
Qed.

Lemma step_failed w op :
  pool w = failed →
  pool (step w op) = failed ∧ calls (heap (step w op)) = calls (heap w).
Proof.
  intros Hpool. destruct op as [desc env|r|r reason|r env|r info]; simpl; try done.
  - unfold DevicePool.reserve. by rewrite Hpool.
  - unfold acquire. destruct (store (heap w) !! r); [|done]. by destruct (assert _ _).
  - unfold release. by rewrite Hpool.
Qed.

(** X18: once the construction of the first device has failed the pool
    stays failed whatever is called: every [reserve] throws the same error
    and leaves everything as it is, and no construction is attempted again. *)
Theorem failed_pool_stays_failed w ops :
  pool w = failed →
  pool (run w ops) = failed ∧
  calls (heap (run w ops)) = calls (heap w) ∧
  ∀ desc env, reserve (run w ops) desc env = (run w ops, Throw (not_retrying EmptyString)).
Proof.
  intros Hpool.
  assert (pool (run w ops) = failed ∧ calls (heap (run w ops)) = calls (heap w)) as [H1 H2].
  { induction ops as [|op ops [IH1 IH2]] using rev_ind; [done|].
    rewrite run_snoc. destruct (step_failed (run w ops) op IH1) as [-> ->]. done. }
  repeat split; try done. intros desc env. unfold DevicePool.reserve. by rewrite H1.
Qed.

Lemma step_initialized w this op :
  pool w = initialized this →
  ∃ this', pool (step w op) = initialized this' ∧
           unsupported this ⊆ unsupported this' ∧ poolSize this' = poolSize this.
Proof.
  intros Hpool. destruct op as [desc env|r|r reason|r env|r info]; simpl; try by eauto.
  - unfold DevicePool.reserve. rewrite Hpool.
    destruct (reserve_holder this (heap w) desc (request_create env)) as [w' res] eqn:Hr.
    apply reserve_holder_inv in Hr as (this' & m1 & res1 & Hg & Hpool' & _).
    apply getOrCreate_unsupported in Hg as [Hsub Hsize]. by exists this'.
  - unfold release. rewrite Hpool.
    destruct (store (heap w) !! r) as [holder|]; [|by eauto].
    destruct (assert _ _); [|by eauto].
    destruct (release_try (heap w) r env) as [m1 [[]|ex]]; [by eauto|].
    unfold release_catch. destruct (store m1 !! r) as [h1|]; [|by eauto].
    destruct (negb _); by eauto.
Qed.

(** X19: an initialized pool stays initialized; its capacity never changes
    and its set of unsupported keys never loses a key. *)
Theorem initialized_pool_stays_initialized w this ops :
  pool w = initialized this →
  ∃ this', pool (run w ops) = initialized this' ∧
           unsupported this ⊆ unsupported this' ∧ poolSize this' = poolSize this.
Proof.
  intros Hpool. induction ops as [|op ops (this1 & Hpool1 & Hsub1 & Hsize1)] using rev_ind.
  - by exists this.
  - rewrite run_snoc.
    destruct (step_initialized _ _ op Hpool1) as (this2 & Hpool2 & Hsub2 & Hsize2).
    exists this2. split; [done|]. split; [by etrans|congruence].
Qed.

Lemma create_default_not_unsupported m env m' ex :
  create m None env = (m', Throw ex) → isFeaturesNotSupported ex = false.
Proof.
  unfold create. destruct (requestAdapter env) as [adapter|]; [|by intros [= _ <-]].
  simpl. destruct (requestDevice adapter) as [[]|]; by intros [= _ <-].
Qed.

(** X20: when the construction of the first, default device fails, the
    first [reserve] marks the pool as failed and throws an error that names
    the failure, whatever descriptor was asked for; the device for the
    request itself is not attempted. *)
Theorem first_reserve_failure w desc env m1 ex :
  pool w = uninitialized →
  create (heap w) None (initial_create env) = (m1, Throw ex) →
  reserve w desc env
  = (mkWorld failed m1,
     Throw (not_retrying (" with " +:+ ex_name ex +:+ " " +:+ dquote
                          +:+ ex_message ex +:+ dquote))) ∧
  calls m1 = calls (heap w) ++ [CallCreate None].
Proof.
  intros Hpool Hcreate. split; [|by apply create_store in Hcreate as [_ ?]].
  unfold DevicePool.reserve, DevicePool.getOrCreate. rewrite Hpool. simpl.
  rewrite decide_False by apply not_elem_of_empty. simpl. rewrite Hcreate.
  by rewrite (create_default_not_unsupported _ _ _ _ Hcreate).
Qed.

End Reserving.

(** An implementation whose adapter request comes back empty. *)
Definition no_adapter : CreateEnv := {| requestAdapter := None |}.
Definition broken : ReserveEnv := {| initial_create := no_adapter; request_create := grant |}.

(** A test holds the default device, reserved but not yet acquired. *)
Definition one_reserved : World := run' new_DevicePool [ OpReserve None grants ].

Lemma reserve_hands_out_free_holder_witness :
  (∀ h, store (heap new_DevicePool) !! 0 = Some h → state h = free) ∧
  state <$> store (heap one_reserved) !! 0 = Some reserved.
Proof.
  apply (reserve_hands_out_free_holder exampleLimits exampleLimitDefault
           new_DevicePool None grants one_reserved 0).
  reflexivity.
Defined.

Lemma reserve_keeps_other_holders_witness :
  store (heap (reserve' one_reserved timestamp grants).1) !! 0
  = Some (mkDeviceHolder 0 reserved None None).
Proof.
  apply (reserve_keeps_other_holders exampleLimits exampleLimitDefault
           one_reserved timestamp grants 0 (mkDeviceHolder 0 reserved None None)).
  - reflexivity.
  - by vm_compute.
Defined.

Lemma first_reserve_failure_witness :
  reserve' new_DevicePool timestamp broken
  = (mkWorld failed (mkHeap [] [CallCreate None]),
     Throw (not_retrying (" with " +:+ ex_name (Error "requestAdapter returned null")
                          +:+ " " +:+ dquote
                          +:+ ex_message (Error "requestAdapter returned null") +:+ dquote))) ∧
  calls (mkHeap [] [CallCreate None]) = calls (heap new_DevicePool) ++ [CallCreate None].
Proof.
  apply (first_reserve_failure exampleLimits exampleLimitDefault new_DevicePool
           timestamp broken (mkHeap [] [CallCreate None])
           (Error "requestAdapter returned null")); reflexivity.
Defined.

Lemma failed_pool_stays_failed_witness :
  let w := (reserve' new_DevicePool None broken).1 in
  let ops := [OpReserve None grants; OpRelease 0 quiet] in
  pool (run' w ops) = failed ∧
  calls (heap (run' w ops)) = calls (heap w) ∧
  ∀ desc env, reserve' (run' w ops) desc env
              = (run' w ops, Throw (not_retrying EmptyString)).
Proof.
  apply (failed_pool_stays_failed exampleLimits exampleLimitDefault
           (reserve' new_DevicePool None broken).1
           [OpReserve None grants; OpRelease 0 quiet]).
  reflexivity.
Defined.

Lemma initialized_pool_stays_initialized_witness :
  ∃ this', pool (run' one_reserved [OpAcquire 0; OpRelease 0 quiet]) = initialized this' ∧
           unsupported (mkPool kDevicePoolSize ∅ [(EmptyString, 0)]) ⊆ unsupported this' ∧
           poolSize this' = poolSize (mkPool kDevicePoolSize ∅ [(EmptyString, 0)]).
Proof.
  apply (initialized_pool_stays_initialized exampleLimits exampleLimitDefault one_reserved
           (mkPool kDevicePoolSize ∅ [(EmptyString, 0)]) [OpAcquire 0; OpRelease 0 quiet]).
  reflexivity.
Defined.

(** *** Acquiring and releasing *)

(** X21: [acquire] succeeds exactly on a reserved holder; it then returns
    the device of the holder and leaves the holder acquired, so that a second
    [acquire] of the same holder always fails. *)
Theorem acquire_only_once m r :
  ((∃ d, (acquire m r).2 = Ok d) ↔ state <$> store m !! r = Some reserved) ∧
  (∀ d, (acquire m r).2 = Ok d →
     device <$> store m !! r = Some d ∧
     state <$> store (acquire m r).1 !! r = Some acquired) ∧
  ∃ ex, (acquire (acquire m r).1 r).2 = Throw ex.
Proof.
  unfold acquire at 1 2 3 5. destruct (store m !! r) as [this|] eqn:Hr; simpl.
  - unfold assert. case_bool_decide as Hstate; simpl.
    + split; [split; [by rewrite Hstate|by eauto]|]. split.
      * intros d [= <-]. split; [done|].
        by rewrite list_lookup_alter_eq, Hr.
      * unfold acquire, update_holder. simpl. rewrite list_lookup_alter_eq, Hr. simpl.
        eauto.
    + split; [split; [by intros [? ?]|by intros [= ?]]|]. split; [done|].
      unfold acquire. rewrite Hr. unfold assert. rewrite bool_decide_eq_false_2 by done.
      eauto.
  - split; [split; [by intros [? ?]|done]|]. split; [done|].
    unfold acquire. rewrite Hr. eauto.
Qed.

Lemma release_rejected w r env :
  (∀ this h, pool w = initialized this → store (heap w) !! r = Some h → state h = free) →
  ∃ msg, release w r env = (w, Throw (Error msg)).
Proof.
  intros Hfree. unfold release.
  destruct (pool w) as [| |this] eqn:Hpool; [by eauto..|].
  destruct (store (heap w) !! r) as [h|] eqn:Hr; [|by eauto].
  unfold assert. rewrite bool_decide_eq_true_2 by eauto. simpl. eauto.
Qed.

(** X22: [release] followed by [release] of the same holder: the second
    call throws an error and changes nothing, whatever the first one did. *)
Theorem second_release_is_rejected w r env env' :
  ∃ msg, release (release w r env).1 r env' = ((release w r env).1, Throw (Error msg)).
Proof.
  apply release_rejected. intros this' h' Hpool' Hr'.
  destruct (pool w) as [| |this] eqn:Hpool.
  - unfold release in Hpool'. rewrite Hpool in Hpool'. simpl in Hpool'. congruence.
  - unfold release in Hpool'. rewrite Hpool in Hpool'. simpl in Hpool'. congruence.
  - destruct (store (heap w) !! r) as [h|] eqn:Hr.
    + destruct (decide (state h = free)) as [Hfree|Hbusy].
      * destruct (release_rejected w r env) as [msg Hrel].
        { intros ? ? _ ?. congruence. }
        rewrite Hrel in Hr'. simpl in Hr'. congruence.
      * destruct (release_inv w this r h env Hpool Hr Hbusy)
          as (m1 & res1 & h1 & _ & Hh1 & Hs1 & _ & _ & Hrel).
        rewrite Hrel in Hr'.
        destruct res1 as [[]|ex]; [|destruct (isTestFailedButDeviceReusable ex)];
          simpl in Hr'; rewrite list_lookup_alter_eq, Hh1 in Hr'; simpl in Hr';
          by injection Hr' as <-.
    + destruct (release_rejected w r env) as [msg Hrel].
      { intros ? ? _ ?. congruence. }
      rewrite Hrel in Hr'. simpl in Hr'. congruence.
Qed.

(** Draining the error scopes of a device without incident: no loss
    meanwhile, no timeout, no error in the two scopes, and no scope left
    over. *)
Definition uneventful (env : ReleaseEnv) : Prop :=
  lost_while_draining env = None ∧ timed_out env = false ∧
  popValidation env = Resolved None ∧ popOutOfMemory env = Resolved None ∧
  (∀ name msg, onSubmittedWorkDone env ≠ Some (Rejected name msg)) ∧
  (∃ name msg, popExtra env = Rejected name msg).

Lemma update_holder_ext f g r m :
  (∀ h, f h = g h) → update_holder f r m = update_holder g r m.
Proof. intros Hfg. unfold update_holder. f_equal. by apply list_alter_ext. Qed.

Lemma notify_lost_None h : notify_lost None h = h.
Proof. unfold notify_lost. by destruct (lostInfo h). Qed.

(** The result of [DeviceHolder.release], case by case. *)
Lemma DeviceHolder_release_cases this env :
  DeviceHolder_release this env =
  match popValidation env, popOutOfMemory env with
  | Rejected name msg, _ => pop_failed this name msg
  | Resolved _, Rejected name msg => pop_failed this name msg
  | Resolved v, Resolved o =>
      match onSubmittedWorkDone env with
      | Some (Rejected name msg) => Throw (Foreign name msg)
      | _ =>
          match popExtra env with
          | Resolved _ =>
              Throw (Error "There was an extra error scope on the stack after a test")
          | Rejected _ _ => check_scopes v o
          end
      end
  end.
Proof.
  unfold DeviceHolder_release.
  destruct (popValidation env), (popOutOfMemory env); try done.
  destruct (onSubmittedWorkDone env) as [[]|]; try done; by destruct (popExtra env).
Qed.

(** X23: the release check of a holder throws
    [TestFailedButDeviceReusable] exactly when the first scope gave a
    validation error while both pops resolved, the queue drained and no
    scope was left over, whatever the second scope gave; it succeeds
    exactly when in addition neither scope gave an error. *)
Theorem DeviceHolder_release_outcome this env :
  (DeviceHolder_release this env = Ok tt ↔
     popValidation env = Resolved None ∧ popOutOfMemory env = Resolved None ∧
     (∀ name msg, onSubmittedWorkDone env ≠ Some (Rejected name msg)) ∧
     (∃ name msg, popExtra env = Rejected name msg)) ∧
  ((∃ msg, DeviceHolder_release this env = Throw (TestFailedButDeviceReusable msg)) ↔
     ∃ msg out_of_memory,
       popValidation env = Resolved (Some (GPUValidationError msg)) ∧
       popOutOfMemory env = Resolved out_of_memory ∧
       (∀ name msg, onSubmittedWorkDone env ≠ Some (Rejected name msg)) ∧
       (∃ name msg, popExtra env = Rejected name msg)).
Proof.
  rewrite DeviceHolder_release_cases. unfold pop_failed, check_scopes, assert.
  destruct (popValidation env) as [[[v|v]|]|n1 m1];
    destruct (popOutOfMemory env) as [[[o|o]|]|n2 m2];
    destruct (onSubmittedWorkDone env) as [[[]|n3 m3]|];
    destruct (popExtra env) as [x|n4 m4];
    try destruct (bool_decide (lostInfo this ≠ None)); simpl;
    (split; split;
     [ intros H | intros (Hv & Ho & Hq & n & m & Hx)
     | intros [msg H] | intros (msg & o' & Hv & Ho & Hq & n & m & Hx)]);
    try discriminate; try (by exfalso; eapply Hq);
    try (by eauto 10); try (by repeat split; eauto).
Qed.

Lemma set_state_twice s h : set_state s (set_state s h) = set_state s h.
Proof. done. Qed.

Lemma update_holder_quiet r m : update_holder (notify_lost None) r m = m.
Proof.
  rewrite (update_holder_ext (notify_lost None) id) by apply notify_lost_None.
  apply update_holder_id.
Qed.

Lemma state_is_false m r h s : store m !! r = Some h → state h ≠ s → state_is m r s = false.
Proof.
  intros Hr Hs. unfold state_is. rewrite Hr. apply bool_decide_eq_false_2.
  simpl. congruence.
Qed.

Lemma state_is_true m r h : store m !! r = Some h → state_is m r (state h) = true.
Proof. intros Hr. unfold state_is. rewrite Hr. by apply bool_decide_eq_true_2. Qed.

Lemma lookup_freed m r h :
  store m !! r = Some h → store (update_holder (set_state free) r m) !! r = Some (set_state free h).
Proof. intros Hr. by rewrite lookup_update_holder, decide_True, Hr. Qed.

(** The [try] block on a holder that was reserved and never acquired: the
    error scopes of the device are not looked at. *)
Lemma release_try_reserved m r h env :
  store m !! r = Some h → state h = reserved → lostInfo h = None →
  lost_after_draining env = None →
  release_try m r env = (update_holder (set_state free) r m, Ok tt).
Proof.
  intros Hr Hstate Hinfo Hafter. unfold release_try, ensureRelease, ensureRelease_try.
  rewrite (state_is_false m r h free), (state_is_false m r h acquired), Hafter
    by (done || congruence).
  cbn [assert negb]. rewrite update_holder_quiet, (lookup_freed m r h) by done.
  cbn. by rewrite Hinfo.
Qed.

(** The [try] block on an acquired holder whose device is not lost: the
    outcome is that of the release check of the holder. *)
Lemma release_try_acquired m r h env :
  store m !! r = Some h → state h = acquired → lostInfo h = None →
  lost_while_draining env = None → lost_after_draining env = None → timed_out env = false →
  release_try m r env
  = (update_holder (set_state free) r m,
     match DeviceHolder_release h env with Ok _ => Ok tt | Throw ex => Throw ex end).
Proof.
  intros Hr Hstate Hinfo Hwhile Hafter Htimer.
  unfold release_try, ensureRelease, ensureRelease_try.
  rewrite (state_is_false m r h free) by (done || congruence).
  rewrite <- Hstate, (state_is_true m r h), Hwhile, Hafter, Htimer by done.
  cbn [assert negb]. rewrite !update_holder_quiet. cbv zeta. rewrite Hr.
  unfold raceWithRejectOnTimeout.
  destruct (DeviceHolder_release h env) as [[]|ex]; rewrite update_holder_quiet; [|done].
  rewrite (lookup_freed m r h) by done. cbn. by rewrite Hinfo.
Qed.

(** When the [try] block ends normally or with
    [TestFailedButDeviceReusable], [release] only marks the holder free. *)
Lemma release_kept w this r h env res :
  pool w = initialized this → store (heap w) !! r = Some h → state h ≠ free →
  lostInfo h = None →
  release_try (heap w) r env = (update_holder (set_state free) r (heap w), res) →
  (res = Ok tt ∨ ∃ msg, res = Throw (TestFailedButDeviceReusable msg)) →
  release w r env = (mkWorld (initialized this) (update_holder (set_state free) r (heap w)), res).
Proof.
  intros Hpool Hr Hstate Hinfo Htry Hres. unfold release.
  rewrite Hpool, Hr. unfold assert. rewrite bool_decide_eq_false_2 by done. cbn [negb].
  assert (update_holder (set_state free) r (update_holder (set_state free) r (heap w))
          = update_holder (set_state free) r (heap w)) as Htwice.
  { rewrite update_holder_compose. by apply update_holder_ext. }
  rewrite Htry. destruct Hres as [->|[msg ->]].
  - by rewrite Htwice.
  - unfold release_catch. rewrite (lookup_freed (heap w) r h) by done.
    cbn [isTestFailedButDeviceReusable negb]. rewrite Htwice.
    unfold expectedDeviceLost. cbn [set_state lostInfo expectedLostReason].
    rewrite Hinfo. by destruct (expectedLostReason h).
Qed.

Lemma DeviceHolder_release_uneventful this env :
  uneventful env → DeviceHolder_release this env = Ok tt.
Proof.
  intros (_ & _ & Hv & Ho & Hq & n & m & Hx). rewrite DeviceHolder_release_cases.
  rewrite Hv, Ho, Hx. destruct (onSubmittedWorkDone env) as [[[]|n3 m3]|]; try done.
  by destruct (Hq n3 m3).
Qed.

(** X24: a release without incident returns normally and changes nothing
    but the state of the holder: the pool keeps its holders and no device is
    created or destroyed.  For a holder that was reserved and never acquired
    this holds whatever the error scopes of its device contain, since they
    are not popped. *)
Theorem uneventful_release w this r h env :
  pool w = initialized this → store (heap w) !! r = Some h → lostInfo h = None →
  lost_after_draining env = None →
  state h = reserved ∨ (state h = acquired ∧ uneventful env) →
  release w r env
  = (mkWorld (initialized this) (update_holder (set_state free) r (heap w)), Ok tt).
Proof.
  intros Hpool Hr Hinfo Hafter [Hstate|[Hstate Henv]].
  - apply (release_kept w this r h); auto; [congruence|].
    by apply (release_try_reserved _ _ h).
  - apply (release_kept w this r h); auto; [congruence|].
    rewrite (release_try_acquired _ _ h) by (done || apply Henv).
    by rewrite DeviceHolder_release_uneventful.
Qed.

(** X25: when the test left a validation error in its scope, [release]
    throws [TestFailedButDeviceReusable] with the message of the error and the
    holder stays in the pool, free, its device not destroyed; this is so
    even when the out-of-memory scope holds an error as well. *)
Theorem validation_error_keeps_holder w this r h env msg out_of_memory :
  pool w = initialized this → store (heap w) !! r = Some h → state h = acquired →
  lostInfo h = None →
  lost_while_draining env = None → lost_after_draining env = None → timed_out env = false →
  popValidation env = Resolved (Some (GPUValidationError msg)) →
  popOutOfMemory env = Resolved out_of_memory →
  (∀ name msg, onSubmittedWorkDone env ≠ Some (Rejected name msg)) →
  (∃ name msg, popExtra env = Rejected name msg) →
  release w r env
  = (mkWorld (initialized this) (update_holder (set_state free) r (heap w)),
     Throw (TestFailedButDeviceReusable ("Unexpected validation error occurred: " +:+ msg))).
Proof.
  intros Hpool Hr Hstate Hinfo Hwhile Hafter Htimer Hv Ho Hq (n & m & Hx).
  apply (release_kept w this r h); eauto; [congruence|].
  rewrite (release_try_acquired _ _ h), DeviceHolder_release_cases, Hv, Ho, Hx by done.
  destruct (onSubmittedWorkDone env) as [[[]|n3 m3]|]; try done.
  by destruct (Hq n3 m3).
Qed.

(** A validation error and an out-of-memory error in the same test. *)
Definition both_scopes_failed : ReleaseEnv :=
  {| lost_while_draining := None;
     popValidation := Resolved (Some (GPUValidationError "invalid bind group"));
     popOutOfMemory := Resolved (Some (GPUOutOfMemoryError "out of memory"));
     onSubmittedWorkDone := None;
     popExtra := no_scope_left;
     timed_out := false;
     lost_after_draining := None |}.

(** Scopes that would fail the release check, had they been popped. *)
Definition unpopped : ReleaseEnv :=
  {| lost_while_draining := None;
     popValidation := Resolved (Some (GPUValidationError "invalid bind group"));
     popOutOfMemory := Rejected "OperationError" "device is lost";
     onSubmittedWorkDone := None;
     popExtra := Resolved None;
     timed_out := true;
     lost_after_draining := None |}.

Lemma uneventful_release_witness :
  release one_reserved 0 unpopped
  = (mkWorld (initialized (mkPool kDevicePoolSize ∅ [(EmptyString, 0)]))
       (update_holder (set_state free) 0 (heap one_reserved)), Ok tt).
Proof.
  apply (uneventful_release one_reserved (mkPool kDevicePoolSize ∅ [(EmptyString, 0)]) 0
           (mkDeviceHolder 0 reserved None None) unpopped); try reflexivity.
  by left.
Defined.

Lemma validation_error_keeps_holder_witness :
  release one_acquired 0 both_scopes_failed
  = (mkWorld (initialized (mkPool kDevicePoolSize ∅ [(EmptyString, 0)]))
       (update_holder (set_state free) 0 (heap one_acquired)),
     Throw (TestFailedButDeviceReusable
              ("Unexpected validation error occurred: " +:+ "invalid bind group"))).
Proof.
  apply (validation_error_keeps_holder one_acquired
           (mkPool kDevicePoolSize ∅ [(EmptyString, 0)]) 0
           (mkDeviceHolder 0 acquired None None) both_scopes_failed
           "invalid bind group" (Some (GPUOutOfMemoryError "out of memory")));
    try reflexivity.
  - intros name msg. discriminate.
  - by exists "OperationError", "no error scope on the stack".
Defined.

(** *** What a release leaves alone *)

Lemma device_is_update f r m r' d :
  keeps_device f → device_is (update_holder f r m) r' d = device_is m r' d.
Proof.
  intros Hf. unfold device_is. rewrite lookup_update_holder. case_decide; [|done].
  destruct (store m !! r') as [h|]; simpl; [|done]. by rewrite Hf.
Qed.

Lemma deleteByDevice_loop_update f r m d hs :
  keeps_device f →
  deleteByDevice_loop (update_holder f r m) d hs = deleteByDevice_loop m d hs.
Proof.
  intros Hf. induction hs as [|[key holder] rest IH]; simpl; [done|].
  by rewrite device_is_update, IH.
Qed.

Lemma deleteByDevice_loop_length m d hs :
  length hs ≤ S (length (deleteByDevice_loop m d hs)).
Proof.
  induction hs as [|[key holder] rest IH]; simpl; [lia|].
  destruct (device_is m holder d); simpl; lia.
Qed.

(** The three things [DevicePool.release] can do to the pool: refuse the
    call, free the holder and keep it, or free it, take it out of the pool
    and destroy its device. *)
Inductive release_case (w : World) (r : Ref) : World → Prop :=
  | release_refused : release_case w r w
  | release_keeps this h f :
      pool w = initialized this → store (heap w) !! r = Some h → state h ≠ free →
      lifecycle_update f → state (f h) = free →
      release_case w r (mkWorld (initialized this) (update_holder f r (heap w)))
  | release_discards this h f :
      pool w = initialized this → store (heap w) !! r = Some h → state h ≠ free →
      lifecycle_update f → state (f h) = free →
      release_case w r
        (mkWorld (initialized (deleteByDevice this (heap w) (device h)))
           (log_call (CallDestroy (device h)) (update_holder f r (heap w)))).

Lemma release_cases w r env : release_case w r (release w r env).1.
Proof.
  destruct (pool w) as [| |this] eqn:Hpool.
  - destruct (release_rejected w r env) as [msg ->]; [congruence|constructor].
  - destruct (release_rejected w r env) as [msg ->]; [congruence|constructor].
  - destruct (store (heap w) !! r) as [h|] eqn:Hr.
    + destruct (decide (state h = free)) as [Hfree|Hbusy].
      * destruct (release_rejected w r env) as [msg ->]; [congruence|constructor].
      * destruct (release_inv w this r h env Hpool Hr Hbusy)
          as (m1 & res1 & h1 & Htry & Hh1 & Hs1 & Hd1 & He1 & ->).
        apply release_try_shape in Htry as (f & Hf & ->).
        assert (lifecycle_update (set_state free ∘ f)) as Hf' by (intros h0; apply Hf).
        destruct res1 as [[]|ex]; [|destruct (isTestFailedButDeviceReusable ex)]; simpl.
        -- rewrite update_holder_compose. by apply (release_keeps w r this h).
        -- rewrite update_holder_compose. by apply (release_keeps w r this h).
        -- change (update_holder (set_state free) r
                     (log_call (CallDestroy (device h1)) (update_holder f r (heap w))))
             with (log_call (CallDestroy (device h1))
                     (update_holder (set_state free) r (update_holder f r (heap w)))).
           rewrite update_holder_compose, Hd1. unfold deleteByDevice.
           rewrite deleteByDevice_loop_update by by apply lifecycle_update_keeps_device.
           by apply (release_discards w r this h).
    + destruct (release_rejected w r env) as [msg ->]; [congruence|constructor].
Qed.

(** X26: [release] touches nothing but the holder it is given: every
    other holder is as before and no holder is added; of the holder itself
    the device and the expected loss reason are kept.  Either the pool and
    the devices are as before, or the pool has lost the first entry with the
    device of the holder and exactly that device has been destroyed. *)
Theorem release_touches_one_holder w r env :
  let w' := (release w r env).1 in
  (∀ r', r' ≠ r → store (heap w') !! r' = store (heap w) !! r') ∧
  (∀ h, store (heap w) !! r = Some h →
     ∃ h', store (heap w') !! r = Some h' ∧ device h' = device h ∧
           expectedLostReason h' = expectedLostReason h) ∧
  length (store (heap w')) = length (store (heap w)) ∧
  ((pool w' = pool w ∧ calls (heap w') = calls (heap w)) ∨
   (∃ this h, pool w = initialized this ∧ store (heap w) !! r = Some h ∧
      pool w' = initialized (deleteByDevice this (heap w) (device h)) ∧
      calls (heap w') = calls (heap w) ++ [CallDestroy (device h)])).
Proof.
  cbv zeta.
  destruct (release_cases w r env) as [|this h f Hpool Hr _ Hf _|this h f Hpool Hr _ Hf _].
  - repeat split; eauto.
  - repeat split.
    + intros r' Hne. simpl. by rewrite list_lookup_alter_ne.
    + intros h0 Hr0. simpl. rewrite list_lookup_alter_eq, Hr0. simpl.
      eexists. split; [done|]. apply Hf.
    + simpl. by rewrite length_alter.
    + left. by rewrite Hpool.
  - repeat split.
    + intros r' Hne. simpl. by rewrite list_lookup_alter_ne.
    + intros h0 Hr0. simpl. rewrite list_lookup_alter_eq, Hr0. simpl.
      eexists. split; [done|]. apply Hf.
    + simpl. by rewrite length_alter.
    + right. by exists this, h.
Qed.

(** X27: [deleteByDevice] removes the first entry whose holder has the
    device, and only that one; when no holder has the device the pool is
    left as it is. *)
Theorem deleteByDevice_removes_first_match this m d :
  (Forall (λ e, device_is m e.2 d = false) (holders this) ∧
   deleteByDevice this m d = this) ∨
  (∃ pre key r post,
     holders this = pre ++ (key, r) :: post ∧
     Forall (λ e, device_is m e.2 d = false) pre ∧ device_is m r d = true ∧
     deleteByDevice this m d = set_holders (pre ++ post) this).
Proof.
  destruct this as [size unsup hs]. unfold deleteByDevice, set_holders. simpl.
  induction hs as [|[key holder] rest IH]; simpl.
  - by left.
  - destruct (device_is m holder d) eqn:Hdev.
    + right. by exists [], key, holder, rest.
    + destruct IH as [[Hall Heq]|(pre & key' & r & post & -> & Hpre & Hr & Heq)].
      * left. split; [by constructor|]. by injection Heq as ->.
      * right. exists ((key, holder) :: pre), key', r, post.
        split; [done|]. split; [by constructor|]. split; [done|].
        by injection Heq as ->.
Qed.

Section Releasing.
Variable kLimits : list string.
Variable kLimitDefault : string → nat.

Abbreviation getOrCreate := (getOrCreate kLimits kLimitDefault).
Abbreviation reserve_holder := (reserve_holder kLimits kLimitDefault).
Abbreviation reserve := (reserve kLimits kLimitDefault).
Abbreviation step := (step kLimits kLimitDefault).
Abbreviation run := (run kLimits kLimitDefault).
Abbreviation reachable := (reachable kLimits kLimitDefault).











End Releasing.



End DevicePoolFacts.

(** ** The buffer expectation *)

Module GPUTestFacts.
Import GPUTest.

Definition is_fail (r : Recorded) : Prop := ∃ msg, r = rec_fail msg.

#[local] Instance byte_eq_dec : EqDecision Byte.byte := Byte.byte_eq_dec.

Lemma eqb_false_ne a e : Byte.eqb a e = false ↔ a ≠ e.
Proof.
  split.
  - intros Hne ->. by rewrite Byte.byte_dec_lb in Hne.
  - intros Hne. destruct (Byte.eqb a e) eqn:Heq; [|done].
    by apply Byte.byte_dec_bl in Heq.
Qed.

(** The loop records failures only, at most five in detail and one more
    to say that it stopped; it records none exactly when the arrays agree,
    and counts at least one failed element when they do not. *)
Lemma expectBuffer_loop_grows actual : ∀ exp i n recs n',
  expectBuffer_loop i n actual exp = (recs, n') → n ≤ n'.
Proof.
  induction actual as [|a actual IH]; intros [|e exp] i n recs n'; simpl;
    try (intros [= _ <-]; lia).
  destruct (negb _); [|apply IH].
  case_decide; [intros [= _ <-]; lia|].
  destruct (expectBuffer_loop _ (S n) actual exp) as [recs1 n1] eqn:Hloop.
  intros [= _ <-]. apply IH in Hloop. lia.
Qed.

Lemma expectBuffer_loop_spec actual : ∀ exp i n recs n',
  length actual = length exp → n ≤ 5 →
  expectBuffer_loop i n actual exp = (recs, n') →
  Forall is_fail recs ∧ length recs + n ≤ 6 ∧
  (actual = exp → recs = [] ∧ n' = n) ∧
  (actual ≠ exp → recs ≠ [] ∧ (n = 0 → 0 < n')).
Proof.
  induction actual as [|a actual IH]; intros [|e exp] i n recs n' Hlen Hn; try done.
  - intros [= <- <-]. split_and!; [constructor|simpl; lia|done|done].
  - simpl. destruct (Byte.eqb a e) eqn:Heq; simpl.
    + apply Byte.byte_dec_bl in Heq as ->. intros Hloop.
      destruct (IH exp (S i) n recs n') as (Hfail & Hcount & Hsame & Hdiff);
        [by injection Hlen|done|done|].
      split_and!; [done|done|..].
      * intros [= ->]. by apply Hsame.
      * intros Hne. apply Hdiff. congruence.
    + apply eqb_false_ne in Heq. case_decide as Hmany.
      * intros [= <- <-]. split_and!.
        -- repeat constructor. by eexists.
        -- simpl. lia.
        -- congruence.
        -- intros _. split; [done|lia].
      * destruct (expectBuffer_loop (S i) (S n) actual exp) as [recs0 n0] eqn:Hloop.
        intros [= <- <-].
        destruct (IH exp (S i) (S n) recs0 n0) as (Hfail & Hcount & Hsame & Hdiff);
          [by injection Hlen|lia|done|].
        apply expectBuffer_loop_grows in Hloop.
        split_and!.
        -- constructor; [by eexists|done].
        -- simpl. lia.
        -- congruence.
        -- intros _. split; [done|lia].
Qed.

(** X30: [expectBuffer] records nothing exactly when the two arrays are
    equal.  Otherwise it records at most six failures, and after them the
    two hexadecimal dumps exactly when the arrays have the same length, of
    at most 256 elements, and differ. *)
Theorem expectBuffer_records actual exp :
  (expectBuffer actual exp = [] ↔ actual = exp) ∧
  ∃ fails, Forall is_fail fails ∧ length fails ≤ 6 ∧
    expectBuffer actual exp =
      fails ++
      if bool_decide (length actual = length exp ∧ length exp ≤ 256 ∧ actual ≠ exp)
      then [rec_log ("EXPECT: " +:+ hex exp); rec_log ("ACTUAL: " +:+ hex actual)]
      else [].
Proof.
  unfold expectBuffer. cbv zeta. case_decide as Hsize.
  - split; [split; [done|by intros ->]|].
    exists [rec_fail "size mismatch"]. split; [by repeat constructor; eexists|].
    split; [simpl; lia|]. rewrite bool_decide_eq_false_2; [done|]. by intros [? _].
  - destruct (expectBuffer_loop 0 0 actual exp) as [recs n] eqn:Hloop.
    destruct (expectBuffer_loop_spec actual exp 0 0 recs n Hsize ltac:(lia) Hloop)
      as (Hfail & Hcount & Hsame & Hdiff).
    destruct (decide (actual = exp)) as [Heq|Hne].
    + destruct (Hsame Heq) as [-> ->]. rewrite decide_False by lia.
      split; [done|]. exists []. split; [done|]. split; [simpl; lia|].
      rewrite bool_decide_eq_false_2; [done|]. by intros (_ & _ & ?).
    + destruct (Hdiff Hne) as [Hrecs Hn]. specialize (Hn eq_refl).
      split.
      * split; [|done]. case_decide; [|done]. by intros [? _]%app_eq_nil.
      * exists recs. split; [done|]. split; [lia|].
        case_decide as Hdump.
        -- by rewrite bool_decide_eq_true_2 by (split; [done|split; [apply Hdump|done]]).
        -- rewrite bool_decide_eq_false_2; [by rewrite app_nil_r|].
           intros (_ & ? & _). apply Hdump. by split.
Qed.

End GPUTestFacts.
